(** * stream-os fakelibc: the C stub layer and its formatted-output path

    A shallow embedding of [fakelibc.c].  The file is a replacement libc for a
    freestanding kernel: most routines either call [panic_c] or do nothing, and
    the formatted-output family ([printf], [snprintf], [vfprintf],
    [vsnprintf]) is a thin loop, [do_printf], around a format parser that
    lives on the other side of a foreign interface (five [printf_parser_*]
    functions declared at the top of the C file and defined elsewhere).

    Definitions:
    - the C world (the global [errno], the console, byte memory), faults,
      foreign-call events and a small monad that threads them;
    - the stubs, as written;
    - the foreign interface as a type class, and over it [do_printf] and the
      four formatting entry points, as written;
    - the orchestrator contract of the specification as a predicate on
      traces;
    - [Scripted], a test double for the foreign interface;
    - [Interp], the format parser, output sink and argument cursor that the C
      file only declares, modelled from the specification.

    Properties:
    - the stubs; the shape of every [do_printf] trace; the frame on [errno]
      (all over an arbitrary foreign interface);
    - [InterpFacts]: on the modelled parser, the bounded call against the
      unbounded one, termination of the loop, and argument exhaustion. *)

From Stdlib Require Import ZArith List String Ascii Bool Lia.
Import ListNotations.
Local Open Scope string_scope.
Local Open Scope list_scope.
Local Open Scope Z_scope.

(** ** The C world *)

(** A [char] is an 8-bit byte. *)
Definition byte : Type := ascii.

(** Everything a C routine of the file can observe or change: the global
    [int errno] (fakelibc.c line 102), the bytes the host console has received,
    and byte-addressed memory (addresses are plain integers). *)
Record World : Type := mkWorld {
  errno : Z;
  console : list byte;
  memory : Z -> byte
}.

(** [int errno = 0;] *)
Definition initial_errno : Z := 0.

Definition set_console (out : list byte) (w : World) : World :=
  mkWorld (errno w) out (memory w).

Definition set_memory (m : Z -> byte) (w : World) : World :=
  mkWorld (errno w) (console w) m.

(** Ways a call can end without returning.  [Panic] is [panic_c]; the other
    three are the failure kinds the specification gives the format
    interpreter (its section 7). *)
Variant fault : Type :=
| Panic (msg : string)
| FormatSyntaxError
| UnsupportedConversion
| ArgumentExhausted.

(** A pointer handed back by [va_arg_ptr]: it is represented by the argument
    bytes it designates. *)
Definition arg_ptr : Type := list byte.

(** Calls that leave the C file, and what came back.  The trace of a run is the
    list of these, oldest first. *)
Variant call : Type :=
| panic_c_call (msg : string)
| printf_parser_new_call (format : string)
| printf_parser_new_with_buf_call (format : string) (buf : Z) (size : Z)
| printf_parser_free_call
| printf_parser_advance_call
| printf_parser_push_arg_call (arg : arg_ptr)
| va_arg_ptr_call (size : Z).

Variant reply : Type :=
| returned_void
| returned_int (n : Z)
| returned_ptr (p : arg_ptr)
| returned_parser
| no_return (f : fault).

Definition event : Type := (call * reply)%type.
Definition trace : Type := list event.

(** How a C routine ends: it returns, it is cut short by a fault, or (for the
    loop of [do_printf] only) the iteration budget of the model ran out. *)
Variant outcome (A : Type) : Type :=
| Returned (a : A) (w : World)
| Aborted (f : fault) (w : World)
| Unfinished (w : World).

Arguments Returned {A} a w.
Arguments Aborted {A} f w.
Arguments Unfinished {A} w.

(** The monad of C routines: a world goes in; the foreign calls made and the
    outcome come out. *)
Definition M (A : Type) : Type := World -> trace * outcome A.

Definition ret {A : Type} (a : A) : M A :=
  fun w => ([], Returned a w).

Definition bind {A B : Type} (m : M A) (k : A -> M B) : M B :=
  fun w =>
    match m w with
    | (t, Returned a w1) => let (t', o) := k a w1 in (t ++ t', o)
    | (t, Aborted f w1) => (t, Aborted f w1)
    | (t, Unfinished w1) => (t, Unfinished w1)
    end.

Definition unfinished {A : Type} : M A :=
  fun w => ([], Unfinished w).

Declare Scope libc_scope.
Delimit Scope libc_scope with libc.
Notation "x <- m ;; k" := (bind m (fun x => k))
  (at level 61, m at next level, right associativity) : libc_scope.
Notation "' pat <- m ;; k" := (bind m (fun x => match x with pat => k end))
  (at level 61, pat pattern, m at next level, right associativity) : libc_scope.
Notation "m ;; k" := (bind m (fun _ => k))
  (at level 61, right associativity) : libc_scope.
Local Open Scope libc_scope.

Definition world_of {A : Type} (o : outcome A) : World :=
  match o with
  | Returned _ w => w
  | Aborted _ w => w
  | Unfinished w => w
  end.

(** What a C function hands to its caller.  A function of the file whose body
    ends without a [return] statement hands back no value: [None]. *)
Definition c_int : Type := option Z.

(** A [double] is carried as its 64-bit pattern; no routine of the file looks
    inside one. *)
Definition double : Type := Z.

(** ** The stubs, as written *)

(** Modelled from the spec: [panic_c] is declared in fakelibc.c (line 14) and
    defined elsewhere; the specification calls it an immediate fault, so the
    call is recorded and control does not come back. *)
Definition panic_c {A : Type} (msg : string) : M A :=
  fun w => ([(panic_c_call msg, no_return (Panic msg))], Aborted (Panic msg) w).

(** [int mkdir(const char *path, mode_t mode) { }] *)
Definition mkdir (path : string) (mode : Z) : M c_int :=
  ret None.

Definition strstr (haystack needle : string) : M Z :=
  panic_c "strstr unimplemented".

Definition strchr (s : string) (c : Z) : M Z :=
  panic_c "strchr unimplemented".

Definition strrchr (s : string) (c : Z) : M Z :=
  panic_c "strrchr unimplemented".

Definition atoi (nptr : string) : M c_int :=
  panic_c "atoi unimplemented".

Definition atof (nptr : string) : M (option double) :=
  panic_c "atof unimplemented".

Definition abs (j : Z) : M c_int :=
  panic_c "abs unimplemented".

Definition exit (status : Z) : M unit :=
  panic_c "exit unimplemented".

(** [int system(const char *command) { return 1; }] *)
Definition system (command : string) : M c_int :=
  ret (Some 1).

(** The variadic tail of [fprintf] and [sscanf] is never read; it is carried
    as the raw bytes the caller pushed. *)
Definition fprintf (stream : Z) (format : string) (varargs : list byte) : M c_int :=
  panic_c "fprintf unimplemented".

Definition rename (old new : string) : M c_int :=
  panic_c "rename unimplemented".

Definition remove (pathname : string) : M c_int :=
  panic_c "remove unimplemented".

(** [int fflush(FILE *stream) { }] *)
Definition fflush (stream : Z) : M c_int :=
  ret None.

Definition sscanf (str format : string) (varargs : list byte) : M c_int :=
  panic_c "sscanf unimplemented".

Definition fabs (x : double) : M (option double) :=
  panic_c "fabs unimplemented".

Definition isspace (c : Z) : M c_int :=
  panic_c "isspace unimplemented".

Definition DG_Init : M unit := ret tt.
Definition DG_SleepMs (ms : Z) : M unit := ret tt.
Definition DG_SetWindowTitle (title : string) : M unit := ret tt.

(** One invocation of one of the thirteen panicking stubs, with its
    arguments. *)
Variant stub_call : Type :=
| call_strstr (haystack needle : string)
| call_strchr (s : string) (c : Z)
| call_strrchr (s : string) (c : Z)
| call_atoi (nptr : string)
| call_atof (nptr : string)
| call_abs (j : Z)
| call_exit (status : Z)
| call_fprintf (stream : Z) (format : string) (varargs : list byte)
| call_rename (old new : string)
| call_remove (pathname : string)
| call_sscanf (str format : string) (varargs : list byte)
| call_fabs (x : double)
| call_isspace (c : Z).

Definition stub_name (c : stub_call) : string :=
  match c with
  | call_strstr _ _ => "strstr"
  | call_strchr _ _ => "strchr"
  | call_strrchr _ _ => "strrchr"
  | call_atoi _ => "atoi"
  | call_atof _ => "atof"
  | call_abs _ => "abs"
  | call_exit _ => "exit"
  | call_fprintf _ _ _ => "fprintf"
  | call_rename _ _ => "rename"
  | call_remove _ => "remove"
  | call_sscanf _ _ _ => "sscanf"
  | call_fabs _ => "fabs"
  | call_isspace _ => "isspace"
  end.

(** The observable part of running a computation: its trace and how it ended,
    with the returned value dropped (the stubs differ in return type). *)
Definition observe {A : Type} (m : M A) (w : World) : trace * outcome unit :=
  match m w with
  | (t, Returned _ w') => (t, Returned tt w')
  | (t, Aborted f w') => (t, Aborted f w')
  | (t, Unfinished w') => (t, Unfinished w')
  end.

Definition run_stub (c : stub_call) (w : World) : trace * outcome unit :=
  match c with
  | call_strstr h n => observe (strstr h n) w
  | call_strchr s c => observe (strchr s c) w
  | call_strrchr s c => observe (strrchr s c) w
  | call_atoi p => observe (atoi p) w
  | call_atof p => observe (atof p) w
  | call_abs j => observe (abs j) w
  | call_exit s => observe (exit s) w
  | call_fprintf f fmt va => observe (fprintf f fmt va) w
  | call_rename o n => observe (rename o n) w
  | call_remove p => observe (remove p) w
  | call_sscanf s fmt va => observe (sscanf s fmt va) w
  | call_fabs x => observe (fabs x) w
  | call_isspace c => observe (isspace c) w
  end.

(** ** The foreign interface *)

(** What a foreign function gives back: a value and the world it left, or a
    fault and the world at the fault. *)
Variant result (A : Type) : Type :=
| Ok (a : A) (w : World)
| Fault (f : fault) (w : World).

Arguments Ok {A} a w.
Arguments Fault {A} f w.

Definition result_world {A : Type} (r : result A) : World :=
  match r with
  | Ok _ w => w
  | Fault _ w => w
  end.

(** Everything fakelibc.c uses without defining: the opaque
    [struct PrintfParser] and its five functions (lines 7-12), the
    [va_arg_ptr] macro over [va_list], and the [stdout] stream pointer.  A
    parser object is threaded by value: each function that changes the object
    behind the C pointer gives the changed object back.  [va_arg_ptr] is a
    macro over the caller's argument area: it yields the pointer and the
    advanced list, or faults. *)
Class Foreign : Type := {
  PrintfParser : Type;
  va_list : Type;
  stdout : Z;
  printf_parser_new : string -> World -> result PrintfParser;
  printf_parser_new_with_buf : string -> Z -> Z -> World -> result PrintfParser;
  printf_parser_free : PrintfParser -> World -> result unit;
  printf_parser_push_arg : PrintfParser -> arg_ptr -> World -> result PrintfParser;
  printf_parser_advance : PrintfParser -> World -> result (Z * PrintfParser);
  va_arg_ptr : va_list -> Z -> fault + (arg_ptr * va_list)
}.

(** A foreign call inside the monad: run it, record the call and its reply. *)
Definition foreign {A : Type} (c : call) (reply_of : A -> reply)
    (f : World -> result A) : M A :=
  fun w =>
    match f w with
    | Ok a w' => ([(c, reply_of a)], Returned a w')
    | Fault e w' => ([(c, no_return e)], Aborted e w')
    end.

(** The implicit conversion of a [size_t] argument to the [uint32_t]
    parameter of [printf_parser_new_with_buf]. *)
Definition to_uint32 (n : Z) : Z := n mod 2 ^ 32.

Section Formatting.
Context {F : Foreign}.

Definition call_new (format : string) : M PrintfParser :=
  foreign (printf_parser_new_call format) (fun _ => returned_parser)
          (printf_parser_new format).

Definition call_new_with_buf (format : string) (buf size : Z) : M PrintfParser :=
  foreign (printf_parser_new_with_buf_call format buf size) (fun _ => returned_parser)
          (printf_parser_new_with_buf format buf size).

Definition call_free (parser : PrintfParser) : M unit :=
  foreign printf_parser_free_call (fun _ => returned_void)
          (printf_parser_free parser).

Definition call_advance (parser : PrintfParser) : M (Z * PrintfParser) :=
  foreign printf_parser_advance_call (fun r => returned_int (fst r))
          (printf_parser_advance parser).

Definition call_push_arg (parser : PrintfParser) (arg : arg_ptr) : M PrintfParser :=
  foreign (printf_parser_push_arg_call arg) (fun _ => returned_void)
          (printf_parser_push_arg parser arg).

Definition call_va_arg_ptr (args : va_list) (size : Z) : M (arg_ptr * va_list) :=
  fun w =>
    match va_arg_ptr args size with
    | inr (arg, args') => ([(va_arg_ptr_call size, returned_ptr arg)], Returned (arg, args') w)
    | inl e => ([(va_arg_ptr_call size, no_return e)], Aborted e w)
    end.

(** The [while (true)] loop of [do_printf] (lines 113-120).  [fuel] bounds the
    number of times the body is entered; the parser object and the argument
    list are the loop's state. *)
Fixpoint do_printf_loop (fuel : nat) (parser : PrintfParser) (args : va_list)
    : M PrintfParser :=
  match fuel with
  | O => unfinished
  | S fuel' =>
      '(arg_size, parser) <- call_advance parser ;;
      if arg_size =? 0 then
        ret parser
      else
        '(arg, args) <- call_va_arg_ptr args arg_size ;;
        parser <- call_push_arg parser arg ;;
        do_printf_loop fuel' parser args
  end.

(** [void do_printf(struct PrintfParser* parser, const char *restrict format,
    va_list args)]: the result is the parser object as the loop left it. *)
Definition do_printf (fuel : nat) (parser : PrintfParser) (format : string)
    (args : va_list) : M PrintfParser :=
  do_printf_loop fuel parser args.

(** [int vfprintf(FILE *restrict stream, const char *restrict format,
    va_list args)] (lines 70-76); no [return] statement. *)
Definition vfprintf (fuel : nat) (stream : Z) (format : string) (args : va_list)
    : M c_int :=
  parser <- call_new format ;;
  parser <- do_printf fuel parser format args ;;
  call_free parser ;;
  ret None.

(** [int vsnprintf(char *restrict str, size_t size, const char *restrict
    format, va_list args)] (lines 78-82); no [return] statement. *)
Definition vsnprintf (fuel : nat) (str : Z) (size : Z) (format : string)
    (args : va_list) : M c_int :=
  parser <- call_new_with_buf format str (to_uint32 size) ;;
  parser <- do_printf fuel parser format args ;;
  call_free parser ;;
  ret None.

(** [int printf(const char *restrict format, ...)] (lines 47-55).  [varargs]
    is the list [va_start] makes of the caller's variadic arguments; the
    result of [vfprintf] is dropped and there is no [return] statement. *)
Definition printf (fuel : nat) (format : string) (varargs : va_list) : M c_int :=
  vfprintf fuel stdout format varargs ;;
  ret None.

(** [int snprintf(char *restrict buf, size_t size, const char *restrict
    format, ...)] (lines 60-68). *)
Definition snprintf (fuel : nat) (buf : Z) (size : Z) (format : string)
    (varargs : va_list) : M c_int :=
  vsnprintf fuel buf size format varargs ;;
  ret None.

End Formatting.

(** ** The orchestrator contract in the specification's words

    Section 4.4: call [advance]; if the result is 0, stop; otherwise pull that
    many bytes from the argument cursor and call [push_argument] with them;
    repeat.  [orchestrated t e] says that the trace [t] is a run of that loop
    which ended as [e]: it stopped, it was cut short by a fault inside one of
    the three calls, or it is an unfinished run stopped at the loop head. *)
Variant ending : Type :=
| Stopped
| Cut (f : fault)
| Running.

Definition advance_returned (n : Z) : event :=
  (printf_parser_advance_call, returned_int n).
Definition pulled (n : Z) (arg : arg_ptr) : event :=
  (va_arg_ptr_call n, returned_ptr arg).
Definition pushed (arg : arg_ptr) : event :=
  (printf_parser_push_arg_call arg, returned_void).

Inductive orchestrated : trace -> ending -> Prop :=
| orch_stop :
    orchestrated [advance_returned 0] Stopped
| orch_round n arg rest e :
    n <> 0 ->
    orchestrated rest e ->
    orchestrated (advance_returned n :: pulled n arg :: pushed arg :: rest) e
| orch_running :
    orchestrated [] Running
| orch_advance_fault f :
    orchestrated [(printf_parser_advance_call, no_return f)] (Cut f)
| orch_pull_fault n f :
    n <> 0 ->
    orchestrated [advance_returned n; (va_arg_ptr_call n, no_return f)] (Cut f)
| orch_push_fault n arg f :
    n <> 0 ->
    orchestrated [advance_returned n; pulled n arg;
                  (printf_parser_push_arg_call arg, no_return f)] (Cut f).

Definition ending_of {A : Type} (o : outcome A) : ending :=
  match o with
  | Returned _ _ => Stopped
  | Aborted f _ => Cut f
  | Unfinished _ => Running
  end.

(** The calls of a trace that go to the parser ([va_arg_ptr] is a macro over
    the caller's own argument area). *)
Definition is_parser_call (e : event) : bool :=
  match fst e with
  | printf_parser_advance_call | printf_parser_push_arg_call _ => true
  | _ => false
  end.

Definition parser_calls (t : trace) : trace := filter is_parser_call t.

Definition is_push_arg (e : event) : bool :=
  match fst e with
  | printf_parser_push_arg_call _ => true
  | _ => false
  end.

Definition is_advance (e : event) : bool :=
  match fst e with
  | printf_parser_advance_call => true
  | _ => false
  end.

(** ** The frame on [errno] *)

(** The same world with another value in [errno]. *)
Definition with_errno (e : Z) (w : World) : World :=
  mkWorld e (console w) (memory w).

Definition result_with_errno {A : Type} (e : Z) (r : result A) : result A :=
  match r with
  | Ok a w => Ok a (with_errno e w)
  | Fault f w => Fault f (with_errno e w)
  end.

Definition outcome_with_errno {A : Type} (e : Z) (o : outcome A) : outcome A :=
  match o with
  | Returned a w => Returned a (with_errno e w)
  | Aborted f w => Aborted f (with_errno e w)
  | Unfinished w => Unfinished (with_errno e w)
  end.

(** A routine neither writes nor reads [errno]: run from [w], it ends,
    however it ends, with [errno] as it found it; and had [errno] held [e]
    instead, it would have made the same calls and ended the same way, with
    [e] still in [errno]. *)
Definition errno_untouched_at {A : Type} (m : M A) (w : World) (e : Z) : Prop :=
  errno (world_of (snd (m w))) = errno w
  /\ m (with_errno e w) = (fst (m w), outcome_with_errno e (snd (m w))).

Definition errno_untouched {A : Type} (m : M A) : Prop :=
  forall w e, errno_untouched_at m w e.

(** The same for a foreign function. *)
Definition foreign_errno_untouched {A : Type} (f : World -> result A) : Prop :=
  forall w e,
    errno (result_world (f w)) = errno w
    /\ f (with_errno e w) = result_with_errno e (f w).

(** The foreign parser functions neither write nor read [errno]. *)
Record errno_is_foreign_to_the_parser {F : Foreign} : Prop := {
  new_leaves_errno :
    forall format, foreign_errno_untouched (printf_parser_new format);
  new_with_buf_leaves_errno :
    forall format buf size,
      foreign_errno_untouched (printf_parser_new_with_buf format buf size);
  free_leaves_errno :
    forall parser, foreign_errno_untouched (printf_parser_free parser);
  push_arg_leaves_errno :
    forall parser arg, foreign_errno_untouched (printf_parser_push_arg parser arg);
  advance_leaves_errno :
    forall parser, foreign_errno_untouched (printf_parser_advance parser)
}.

(** ** The entry points as traces *)

Definition is_constructor (e : event) : bool :=
  match fst e with
  | printf_parser_new_call _ | printf_parser_new_with_buf_call _ _ _ => true
  | _ => false
  end.

Definition is_free (e : event) : bool :=
  match fst e with
  | printf_parser_free_call => true
  | _ => false
  end.

Definition constructions (t : trace) : nat := List.length (filter is_constructor t).
Definition frees (t : trace) : nat := List.length (filter is_free t).

(** The calls of [vfprintf] and [vsnprintf] (lines 70-82), read off their
    three statements: the constructor [ctor]; if it returned, the loop of
    [do_printf]; if that returned, [printf_parser_free].  A fault in any of
    them ends the call there. *)
Variant framed (ctor : call) : trace -> ending -> Prop :=
| framed_no_parser f :
    framed ctor [(ctor, no_return f)] (Cut f)
| framed_loop_cut loop e :
    orchestrated loop e -> e <> Stopped ->
    framed ctor ((ctor, returned_parser) :: loop) e
| framed_free_fault loop f :
    orchestrated loop Stopped ->
    framed ctor ((ctor, returned_parser) :: loop
                 ++ [(printf_parser_free_call, no_return f)]) (Cut f)
| framed_freed loop :
    orchestrated loop Stopped ->
    framed ctor ((ctor, returned_parser) :: loop
                 ++ [(printf_parser_free_call, returned_void)]) Stopped.

(** ** Running out of arguments *)

(** The failure kind [ArgumentExhausted] of section 7, as the end of a
    run. *)
Definition exhausted {A : Type} (r : trace * outcome A) : Prop :=
  exists w', snd r = Aborted ArgumentExhausted w'.

(** A run that a fault ended stopped at the foreign call that raised the
    fault: that call is the last of the trace. *)
Definition ends_at_its_fault {A : Type} (r : trace * outcome A) : Prop :=
  forall f w',
    snd r = Aborted f w' -> exists pre c, fst r = pre ++ [(c, no_return f)].

(** The foreign side as C has it.  [va_arg_ptr] is a macro over a [va_list],
    which carries no length: it yields a pointer whatever was passed.  The
    parser functions never see the [va_list], and do not report
    [ArgumentExhausted]. *)
Record arguments_are_unchecked {F : Foreign} : Prop := {
  va_arg_ptr_always_yields :
    forall args size, exists arg args', va_arg_ptr args size = inr (arg, args');
  new_not_exhausted :
    forall format w w',
      printf_parser_new format w <> Fault ArgumentExhausted w';
  new_with_buf_not_exhausted :
    forall format buf size w w',
      printf_parser_new_with_buf format buf size w <> Fault ArgumentExhausted w';
  free_not_exhausted :
    forall parser w w',
      printf_parser_free parser w <> Fault ArgumentExhausted w';
  push_arg_not_exhausted :
    forall parser arg w w',
      printf_parser_push_arg parser arg w <> Fault ArgumentExhausted w';
  advance_not_exhausted :
    forall parser w w',
      printf_parser_advance parser w <> Fault ArgumentExhausted w'
}.

(** ** The common body of the entry points, and sequences of calls *)

Section Callers.
Context {F : Foreign}.

(** The common body of [vfprintf] and [vsnprintf]: constructor, loop,
    [printf_parser_free]. *)
Definition construct_run_free (fuel : nat) (c : call)
    (construct : World -> result PrintfParser) (format : string) (args : va_list)
    : M c_int :=
  parser <- foreign c (fun _ => returned_parser) construct ;;
  parser <- do_printf fuel parser format args ;;
  call_free parser ;;
  ret None.

(** One call of a routine of fakelibc.c by a client, with its arguments. *)
Variant libc_call : Type :=
| Call_stub (c : stub_call)
| Call_mkdir (path : string) (mode : Z)
| Call_system (command : string)
| Call_fflush (stream : Z)
| Call_DG_Init
| Call_DG_SleepMs (ms : Z)
| Call_DG_SetWindowTitle (title : string)
| Call_printf (format : string) (varargs : va_list)
| Call_snprintf (buf size : Z) (format : string) (varargs : va_list)
| Call_vfprintf (stream : Z) (format : string) (args : va_list)
| Call_vsnprintf (str size : Z) (format : string) (args : va_list)
| Call_do_printf (parser : PrintfParser) (format : string) (args : va_list).

(** The call, with whatever it returns dropped. *)
Definition run_call (fuel : nat) (c : libc_call) : M unit :=
  match c with
  | Call_stub c => run_stub c
  | Call_mkdir path mode => mkdir path mode ;; ret tt
  | Call_system command => system command ;; ret tt
  | Call_fflush stream => fflush stream ;; ret tt
  | Call_DG_Init => DG_Init
  | Call_DG_SleepMs ms => DG_SleepMs ms
  | Call_DG_SetWindowTitle title => DG_SetWindowTitle title
  | Call_printf format varargs => printf fuel format varargs ;; ret tt
  | Call_snprintf buf size format varargs =>
      snprintf fuel buf size format varargs ;; ret tt
  | Call_vfprintf stream format args => vfprintf fuel stream format args ;; ret tt
  | Call_vsnprintf str size format args =>
      vsnprintf fuel str size format args ;; ret tt
  | Call_do_printf parser format args =>
      do_printf fuel parser format args ;; ret tt
  end.

(** A client that makes the calls one after the other; a call that does not
    return ends the client. *)
Fixpoint run_calls (fuel : nat) (cs : list libc_call) : M unit :=
  match cs with
  | [] => ret tt
  | c :: cs' => run_call fuel c ;; run_calls fuel cs'
  end.

End Callers.

(** ** A proof step on traces *)

(** Peel one event off a decomposition [H : x :: t = pre ++ e :: post]:
    either [pre] is empty, [Hx : x = e] and [Ht : t = post], or [pre] starts
    with [x] and [H] decomposes [t]. *)
Ltac peel H :=
  match type of H with
  | ?x :: ?t = ?p ++ ?e :: ?post =>
      let pre := fresh "pre" in
      symmetry in H; apply app_eq_cons in H;
      destruct H as [[-> H] | (pre & -> & H)];
      [ assert (Hx : x = e) by congruence;
        assert (Ht : t = post) by congruence;
        clear H
      | ]
  end.

(** ** A scripted parser

    A test double for the foreign interface: the parser object is the list of
    values its [advance] will return, in order, and 0 once the list is used
    up; [push_arg] does nothing; [va_arg_ptr] hands out the next [size] bytes
    of a byte list (none for a size that is not positive) and never faults. *)
Module Scripted.

Definition advance (script : list Z) (w : World) : result (Z * list Z) :=
  match script with
  | [] => Ok (0, []) w
  | n :: rest => Ok (n, rest) w
  end.

Definition pull (args : list byte) (size : Z) : fault + (arg_ptr * list byte) :=
  inr (firstn (Z.to_nat size) args, skipn (Z.to_nat size) args).

#[local] Instance foreign_of (script : list Z) : Foreign := {|
  PrintfParser := list Z;
  va_list := list byte;
  stdout := 1;
  printf_parser_new := fun _ w => Ok script w;
  printf_parser_new_with_buf := fun _ _ _ w => Ok script w;
  printf_parser_free := fun _ w => Ok tt w;
  printf_parser_push_arg := fun p _ w => Ok p w;
  printf_parser_advance := advance;
  va_arg_ptr := pull
|}.

End Scripted.

(** ** The format interpreter, modelled from the specification

    fakelibc.c declares the parser and never defines it; the definitions of
    this module follow the specification (sections 3, 4 and 7) instead of C
    code.  A C string is represented by the bytes before its terminator. *)
Module Interp.

Definition NUL : byte := "000"%char.

Definition len (bs : list byte) : Z := Z.of_nat (List.length bs).

(** *** ArgumentCursor *)

(** Modelled from the spec: the [va_arg_ptr] macro and its [va_list], absent
    from the sources, after section 4.2 ([pull(n_bytes)]): the cursor is the
    raw argument bytes not yet consumed; a pull yields exactly the next
    [n_bytes] of them and advances, and fails with [ArgumentExhausted] when
    fewer remain. *)
Definition ArgumentCursor : Type := list byte.

(** Modelled from the spec: [pull(n_bytes)] of section 4.2, standing for the
    absent [va_arg_ptr].  The specification does not say what a request that
    is not positive does; here it yields no bytes and consumes none. *)
Definition pull (cursor : ArgumentCursor) (n_bytes : Z)
    : fault + (arg_ptr * ArgumentCursor) :=
  if n_bytes <=? len cursor then
    inr (firstn (Z.to_nat n_bytes) cursor, skipn (Z.to_nat n_bytes) cursor)
  else
    inl ArgumentExhausted.

(** *** OutputSink *)

(** Modelled from the spec: the output sink of section 3, absent from the
    sources.  The bounded kind carries the caller's buffer address next to
    its capacity. *)
Variant SinkKind : Type :=
| Unbounded
| Bounded (buf : Z) (capacity : Z).

(** Modelled from the spec: the sink state of section 3 ([written], the
    content bytes actually stored; [logical_length], the bytes an unbounded
    sink would have received; the [truncated] flag). *)
Record OutputSink : Type := mkSink {
  kind : SinkKind;
  written : Z;
  logical_length : Z;
  truncated : bool
}.

(** Byte memory: one store, a run of stores, a run of loads. *)
Definition store (m : Z -> byte) (addr : Z) (b : byte) : Z -> byte :=
  fun a => if a =? addr then b else m a.

Fixpoint store_bytes (m : Z -> byte) (addr : Z) (bs : list byte) : Z -> byte :=
  match bs with
  | [] => m
  | b :: bs' => store_bytes (store m addr b) (addr + 1) bs'
  end.

Fixpoint read_bytes (m : Z -> byte) (addr : Z) (n : nat) : list byte :=
  match n with
  | O => []
  | S n' => m addr :: read_bytes m (addr + 1) n'
  end.

(** Modelled from the spec: [write(bytes)] of section 4.3, absent from the
    sources.  Unbounded: every byte goes to the console and both counters
    grow alike.  Bounded: the logical length grows by the full length; bytes
    are kept only while [written < capacity - 1]; the rest is dropped and
    [truncated] is set; a terminator is placed right after the kept content
    whenever the capacity is positive. *)
Definition sink_write (s : OutputSink) (bytes : list byte) (w : World)
    : OutputSink * World :=
  match kind s with
  | Unbounded =>
      (mkSink Unbounded (written s + len bytes) (logical_length s + len bytes)
              (truncated s),
       set_console (console w ++ bytes) w)
  | Bounded buf capacity =>
      let room := Z.max 0 (capacity - 1 - written s) in
      let kept := firstn (Z.to_nat room) bytes in
      let written' := written s + len kept in
      let m1 := store_bytes (memory w) (buf + written s) kept in
      let m2 := if 0 <? capacity then store m1 (buf + written') NUL else m1 in
      (mkSink (Bounded buf capacity) written' (logical_length s + len bytes)
              (truncated s || (len kept <? len bytes)),
       set_memory m2 w)
  end.

Definition unbounded_sink : OutputSink := mkSink Unbounded 0 0 false.

Definition bounded_sink (buf capacity : Z) : OutputSink :=
  mkSink (Bounded buf capacity) 0 0 false.

(** *** FormatParser: data model (section 3) *)

(** Modelled from the spec: the parser state of section 3, absent from the
    sources: [mode], the flags, width, precision, length modifier and
    conversion kind of a directive, the side-channel requests, and the parser
    record itself with its [cursor] into the format. *)
Variant Mode : Type := Scanning | AwaitingArgument.

Record Flags : Type := mkFlags {
  left_justify : bool;
  zero_pad : bool;
  force_sign : bool;
  space_for_positive : bool;
  alternate_form : bool
}.

Definition no_flags : Flags := mkFlags false false false false false.

(** A width is a literal or the from-argument marker; a precision may also be
    absent. *)
Variant Width : Type := WidthLit (n : Z) | WidthFromArg.
Variant Precision : Type := PrecAbsent | PrecLit (n : Z) | PrecFromArg.

Variant LengthModifier : Type :=
| LenChar | LenShort | LenInt | LenLong | LenLongLong | LenSize | LenPointer.

Variant ConversionKind : Type :=
| SignedInt | UnsignedInt | Octal | HexLower | HexUpper
| FloatFixed | FloatExp | FloatGeneral
| StringConv | CharConv | PointerConv | PercentLiteral | CountOut.

Record Directive : Type := mkDirective {
  flags : Flags;
  width : Width;
  precision : Precision;
  length_modifier : LengthModifier;
  conversion : ConversionKind;
  arg_width : Z
}.

Variant SideRequest : Type := WidthRequest | PrecisionRequest.

Record FormatParser : Type := mkParser {
  format : list byte;
  cursor : nat;
  mode : Mode;
  pending_directive : option Directive;
  side_channel_queue : list SideRequest
}.

(** What the specification leaves to the platform: the byte widths of the
    argument types, and the text of the conversions it hands to a standard
    algorithm or that read memory behind a pointer (floating point, string,
    pointer).  Both are parameters of the model. *)
Record Host : Type := mkHost {
  int_bytes : positive;
  long_bytes : positive;
  long_long_bytes : positive;
  size_bytes : positive;
  pointer_bytes : positive;
  double_bytes : positive;
  render_other : Directive -> list byte -> option (list byte)
}.

Definition no_renderer : Directive -> list byte -> option (list byte) :=
  fun _ _ => None.

Definition ilp32 : Host := mkHost 4 4 8 4 4 8 no_renderer.
Definition lp64 : Host := mkHost 4 8 8 8 8 8 no_renderer.

(** *** FormatParser: the directive grammar *)

(** Modelled from the spec: the directive grammar of section 4.1 (flags,
    width, [.] and precision, length modifier, conversion character), absent
    from the sources.  The characters are the usual ones of C format strings:
    flags [-+ #0], digits, [*], [.], length modifiers [h hh l ll z t] (and
    [L], unsupported), conversions [d i u o x X f e g s c p %% n]. *)
Variant Token : Type :=
| TMinus | TPlus | TSpace | THash | TZero
| TDigit (d : Z)
| TStar | TDot
| TLenH | TLenL | TLenZ | TLenT | TLenBigL
| TConv (k : ConversionKind)
| TOther.

Definition classify (c : byte) : Token :=
  match c with
  | "-"%char => TMinus
  | "+"%char => TPlus
  | " "%char => TSpace
  | "#"%char => THash
  | "0"%char => TZero
  | "1"%char => TDigit 1
  | "2"%char => TDigit 2
  | "3"%char => TDigit 3
  | "4"%char => TDigit 4
  | "5"%char => TDigit 5
  | "6"%char => TDigit 6
  | "7"%char => TDigit 7
  | "8"%char => TDigit 8
  | "9"%char => TDigit 9
  | "*"%char => TStar
  | "."%char => TDot
  | "h"%char => TLenH
  | "l"%char => TLenL
  | "z"%char => TLenZ
  | "t"%char => TLenT
  | "L"%char => TLenBigL
  | "d"%char => TConv SignedInt
  | "i"%char => TConv SignedInt
  | "u"%char => TConv UnsignedInt
  | "o"%char => TConv Octal
  | "x"%char => TConv HexLower
  | "X"%char => TConv HexUpper
  | "f"%char => TConv FloatFixed
  | "e"%char => TConv FloatExp
  | "g"%char => TConv FloatGeneral
  | "s"%char => TConv StringConv
  | "c"%char => TConv CharConv
  | "p"%char => TConv PointerConv
  | "%"%char => TConv PercentLiteral
  | "n"%char => TConv CountOut
  | _ => TOther
  end.

(** Where the scanner stands inside a directive; the grammar is flags, then
    width, then [.] and precision, then length modifier, then the conversion
    character. *)
Variant Phase : Type :=
| InFlags | InWidth | AfterWidth | AfterDot | InPrecision | AfterPrecision
| AfterH | AfterL | AfterLength.

(** The directive read so far. *)
Record Partial : Type := mkPartial {
  p_flags : Flags;
  p_width : Width;
  p_precision : Precision;
  p_length : LengthModifier
}.

Definition empty_partial : Partial :=
  mkPartial no_flags (WidthLit 0) PrecAbsent LenInt.

Definition with_flags (f : Flags -> Flags) (d : Partial) : Partial :=
  mkPartial (f (p_flags d)) (p_width d) (p_precision d) (p_length d).

Definition with_width (x : Width) (d : Partial) : Partial :=
  mkPartial (p_flags d) x (p_precision d) (p_length d).

Definition with_precision (x : Precision) (d : Partial) : Partial :=
  mkPartial (p_flags d) (p_width d) x (p_length d).

Definition with_length (x : LengthModifier) (d : Partial) : Partial :=
  mkPartial (p_flags d) (p_width d) (p_precision d) x.

Definition width_digit (n : Z) (d : Partial) : Partial :=
  match p_width d with
  | WidthLit v => with_width (WidthLit (10 * v + n)) d
  | WidthFromArg => d
  end.

Definition precision_digit (n : Z) (d : Partial) : Partial :=
  match p_precision d with
  | PrecLit v => with_precision (PrecLit (10 * v + n)) d
  | PrecAbsent => with_precision (PrecLit n) d
  | PrecFromArg => d
  end.

Definition set_left_justify (f : Flags) : Flags :=
  mkFlags true (zero_pad f) (force_sign f) (space_for_positive f) (alternate_form f).
Definition set_zero_pad (f : Flags) : Flags :=
  mkFlags (left_justify f) true (force_sign f) (space_for_positive f) (alternate_form f).
Definition set_force_sign (f : Flags) : Flags :=
  mkFlags (left_justify f) (zero_pad f) true (space_for_positive f) (alternate_form f).
Definition set_space_for_positive (f : Flags) : Flags :=
  mkFlags (left_justify f) (zero_pad f) (force_sign f) true (alternate_form f).
Definition set_alternate_form (f : Flags) : Flags :=
  mkFlags (left_justify f) (zero_pad f) (force_sign f) (space_for_positive f) true.

Variant Step : Type :=
| Continue (ph : Phase) (d : Partial)
| Finish (k : ConversionKind)
| Reject (f : fault).

Definition flag_step (ph : Phase) (f : Flags -> Flags) (d : Partial) : Step :=
  match ph with
  | InFlags => Continue InFlags (with_flags f d)
  | _ => Reject FormatSyntaxError
  end.

Definition digit_step (ph : Phase) (n : Z) (d : Partial) : Step :=
  match ph with
  | InFlags | InWidth => Continue InWidth (width_digit n d)
  | AfterDot | InPrecision => Continue InPrecision (precision_digit n d)
  | _ => Reject FormatSyntaxError
  end.

Definition before_length (ph : Phase) : bool :=
  match ph with
  | AfterH | AfterL | AfterLength => false
  | _ => true
  end.

(** Modelled from the spec: one character of a directive, in the order the
    grammar of section 4.1 gives.  A character that cannot stand where the
    scanner is makes the directive malformed ([FormatSyntaxError]); the [L]
    modifier is recognised and unsupported ([UnsupportedConversion]). *)
Definition directive_step (ph : Phase) (d : Partial) (c : byte) : Step :=
  match classify c with
  | TConv k => Finish k
  | TOther => Reject FormatSyntaxError
  | TLenBigL => Reject UnsupportedConversion
  | TMinus => flag_step ph set_left_justify d
  | TPlus => flag_step ph set_force_sign d
  | TSpace => flag_step ph set_space_for_positive d
  | THash => flag_step ph set_alternate_form d
  | TZero =>
      match ph with
      | InFlags => Continue InFlags (with_flags set_zero_pad d)
      | _ => digit_step ph 0 d
      end
  | TDigit n => digit_step ph n d
  | TStar =>
      match ph with
      | InFlags => Continue AfterWidth (with_width WidthFromArg d)
      | AfterDot => Continue AfterPrecision (with_precision PrecFromArg d)
      | _ => Reject FormatSyntaxError
      end
  | TDot =>
      match ph with
      | InFlags | InWidth | AfterWidth => Continue AfterDot (with_precision (PrecLit 0) d)
      | _ => Reject FormatSyntaxError
      end
  | TLenH =>
      match ph with
      | AfterH => Continue AfterLength (with_length LenChar d)
      | AfterL | AfterLength => Reject FormatSyntaxError
      | _ => Continue AfterH (with_length LenShort d)
      end
  | TLenL =>
      match ph with
      | AfterL => Continue AfterLength (with_length LenLongLong d)
      | AfterH | AfterLength => Reject FormatSyntaxError
      | _ => Continue AfterL (with_length LenLong d)
      end
  | TLenZ =>
      if before_length ph then Continue AfterLength (with_length LenSize d)
      else Reject FormatSyntaxError
  | TLenT =>
      if before_length ph then Continue AfterLength (with_length LenPointer d)
      else Reject FormatSyntaxError
  end.

(** Byte width of the type a length modifier declares. *)
Definition length_bytes (h : Host) (l : LengthModifier) : Z :=
  match l with
  | LenChar => 1
  | LenShort => 2
  | LenInt => Zpos (int_bytes h)
  | LenLong => Zpos (long_bytes h)
  | LenLongLong => Zpos (long_long_bytes h)
  | LenSize => Zpos (size_bytes h)
  | LenPointer => Zpos (pointer_bytes h)
  end.

(** Modelled from the spec: the byte width of the argument a conversion
    pulls (section 4.1), after default argument promotion: integers narrower than [int] are passed as [int], [%c] takes an
    [int], every floating conversion takes a [double], strings, pointers and
    count-out take a pointer. *)
Definition argument_bytes (h : Host) (k : ConversionKind) (l : LengthModifier) : Z :=
  match k with
  | SignedInt | UnsignedInt | Octal | HexLower | HexUpper =>
      Z.max (Zpos (int_bytes h)) (length_bytes h l)
  | FloatFixed | FloatExp | FloatGeneral => Zpos (double_bytes h)
  | CharConv => Zpos (int_bytes h)
  | StringConv | PointerConv | CountOut => Zpos (pointer_bytes h)
  | PercentLiteral => 0
  end.

(** Modelled from the spec: a directive is complete at its conversion
    character.  A length modifier on a string, character or pointer conversion
    is taken as one of the unsupported combinations of section 7. *)
Definition finish_directive (h : Host) (d : Partial) (k : ConversionKind)
    : fault + Directive :=
  match k, p_length d with
  | (StringConv | CharConv | PointerConv), LenInt
  | (SignedInt | UnsignedInt | Octal | HexLower | HexUpper
     | FloatFixed | FloatExp | FloatGeneral | CountOut | PercentLiteral), _ =>
      inr (mkDirective (p_flags d) (p_width d) (p_precision d) (p_length d) k
                       (argument_bytes h k (p_length d)))
  | _, _ => inl UnsupportedConversion
  end.

Variant ScanState : Type :=
| InLiteral
| InDirective (ph : Phase) (d : Partial).

(** Where a scan stopped: at the end of the format, at a directive that needs
    an argument (with the format text after it), or at an error. *)
Variant Scanned : Type :=
| AtEnd
| AtDirective (d : Directive) (rest : list byte)
| Failed (f : fault).

Definition emit (c : byte) (r : list byte * Scanned) : list byte * Scanned :=
  (c :: fst r, snd r).

(** Modelled from the spec: the scanner of [advance()], section 4.1: literal
    bytes are emitted as they are passed; [%%] emits one
    [%] and scanning goes on; a directive that needs an argument stops the
    scan; the end of the format inside a directive is a syntax error.  The
    result pairs the literal text emitted with where the scan stopped. *)
Fixpoint scan (h : Host) (st : ScanState) (input : list byte)
    : list byte * Scanned :=
  match input with
  | [] =>
      match st with
      | InLiteral => ([], AtEnd)
      | InDirective _ _ => ([], Failed FormatSyntaxError)
      end
  | c :: rest =>
      match st with
      | InLiteral =>
          if Ascii.eqb c "%"%char then scan h (InDirective InFlags empty_partial) rest
          else emit c (scan h InLiteral rest)
      | InDirective ph d =>
          match directive_step ph d c with
          | Continue ph' d' => scan h (InDirective ph' d') rest
          | Finish PercentLiteral => emit "%"%char (scan h InLiteral rest)
          | Finish k =>
              match finish_directive h d k with
              | inr dir => ([], AtDirective dir rest)
              | inl f => ([], Failed f)
              end
          | Reject f => ([], Failed f)
          end
      end
  end.

(** *** FormatParser: rendering (section 4.1, [push_argument]) *)

(** Modelled from the spec: how argument bytes are read (section 4.1,
    numeric semantics).  Signed values are two's complement; the byte order,
    which the specification leaves open, is little-endian. *)
Definition decode_unsigned (bytes : list byte) : Z :=
  fold_right (fun b acc => Z.of_N (N_of_ascii b) + 256 * acc) 0 bytes.

Definition to_signed (bits : Z) (u : Z) : Z :=
  let m := u mod 2 ^ bits in
  if m <? 2 ^ (bits - 1) then m else m - 2 ^ bits.

Definition decode_signed (bytes : list byte) : Z :=
  to_signed (8 * len bytes) (decode_unsigned bytes).

Definition digit_char (upper : bool) (d : Z) : byte :=
  if d <? 10 then ascii_of_N (Z.to_N (48 + d))
  else ascii_of_N (Z.to_N ((if upper then 55 else 87) + d)).

Fixpoint digits_from (fuel : nat) (base : Z) (upper : bool) (n : Z)
    (acc : list byte) : list byte :=
  match fuel with
  | O => acc
  | S fuel' =>
      let acc' := digit_char upper (n mod base) :: acc in
      if n / base =? 0 then acc' else digits_from fuel' base upper (n / base) acc'
  end.

(** The digits of a non-negative number, most significant first; a number has
    no more digits than bits. *)
Definition digits (base : Z) (upper : bool) (n : Z) : list byte :=
  digits_from (S (Z.to_nat (Z.log2 n))) base upper n [].

Definition repeat_byte (c : byte) (n : Z) : list byte :=
  repeat c (Z.to_nat n).

Definition literal_width (d : Directive) : Z :=
  match width d with
  | WidthLit n => n
  | WidthFromArg => 0
  end.

(** Padding and justification: to the right of the text when left-justified;
    otherwise to the left, with zeros between the sign or prefix and the
    digits when zero-padding applies, with spaces before everything
    otherwise. *)
Definition pad (d : Directive) (zero_ok : bool) (prefix body : list byte)
    : list byte :=
  let fill := literal_width d - len prefix - len body in
  if left_justify (flags d) then
    prefix ++ body ++ repeat_byte " "%char fill
  else if zero_pad (flags d) && zero_ok then
    prefix ++ repeat_byte "0"%char fill ++ body
  else
    repeat_byte " "%char fill ++ prefix ++ body.

Definition sign_prefix (d : Directive) (negative : bool) : list byte :=
  if negative then ["-"%char]
  else if force_sign (flags d) then ["+"%char]
  else if space_for_positive (flags d) then [" "%char]
  else [].

(** Modelled from the spec: an integer in text (section 4.1, magnitude then
    sign): digits of the magnitude, at least as many as the precision (none
    for a zero value at precision zero), sign or alternate-form prefix, then
    padding; a precision turns zero-padding off, as in C. *)
Definition render_integer (d : Directive) (prefix : list byte) (base : Z)
    (upper : bool) (magnitude : Z) : list byte :=
  let shown :=
    match precision d with
    | PrecLit 0 => if magnitude =? 0 then [] else digits base upper magnitude
    | _ => digits base upper magnitude
    end in
  let wanted := match precision d with PrecLit p => p | _ => 0 end in
  let body := repeat_byte "0"%char (wanted - len shown) ++ shown in
  let body :=
    if alternate_form (flags d) && (base =? 8) then
      match body with
      | "0"%char :: _ => body
      | _ => "0"%char :: body
      end
    else body in
  pad d (match precision d with PrecLit _ => false | _ => true end) prefix body.

Definition hex_prefix (d : Directive) (upper : bool) (magnitude : Z) : list byte :=
  if alternate_form (flags d) && negb (magnitude =? 0) then
    if upper then ["0"%char; "X"%char] else ["0"%char; "x"%char]
  else [].

(** The value an integer conversion shows: the pulled bytes, narrowed to the
    width its length modifier declares. *)
Definition value_bits (h : Host) (d : Directive) : Z :=
  8 * length_bytes h (length_modifier d).

(** Modelled from the spec: the text of a directive for its argument bytes
    (section 4.1, [push_argument]).  [None] is a conversion that cannot be
    rendered: count-out always, and whatever the host's renderer declines. *)
Definition render (h : Host) (d : Directive) (bytes : list byte)
    : option (list byte) :=
  let u := decode_unsigned bytes mod 2 ^ value_bits h d in
  match conversion d with
  | SignedInt =>
      let v := to_signed (value_bits h d) (decode_unsigned bytes) in
      Some (render_integer d (sign_prefix d (v <? 0)) 10 false (Z.abs v))
  | UnsignedInt => Some (render_integer d [] 10 false u)
  | Octal => Some (render_integer d [] 8 false u)
  | HexLower => Some (render_integer d (hex_prefix d false u) 16 false u)
  | HexUpper => Some (render_integer d (hex_prefix d true u) 16 true u)
  | CharConv =>
      Some (pad d false [] [ascii_of_N (Z.to_N (decode_unsigned bytes mod 256))])
  | PercentLiteral => Some ["%"%char]
  | CountOut => None
  | FloatFixed | FloatExp | FloatGeneral | StringConv | PointerConv =>
      render_other h d bytes
  end.

(** *** FormatParser: [advance] and [push_argument] (section 4.1) *)

Definition new_parser (fmt : list byte) : FormatParser :=
  mkParser fmt 0 Scanning None [].

(** The from-argument requests of a directive, width before precision. *)
Definition requests_of (d : Directive) : list SideRequest :=
  match width d with WidthFromArg => [WidthRequest] | WidthLit _ => [] end ++
  match precision d with PrecFromArg => [PrecisionRequest] | _ => [] end.

(** Modelled from the spec: [printf_parser_advance], absent from the sources,
    after [advance()] of section 4.1.  The result pairs the literal text to
    write with the argument width requested (0 when the format is exhausted)
    or the fault.  A queued from-argument request is surfaced before the
    directive's own; the directive is held in [pending_directive] from the
    moment it is parsed, and [AwaitingArgument] is entered when its own
    argument is requested.  Calling outside [Scanning] breaks the contract
    and panics. *)
Definition advance (h : Host) (p : FormatParser)
    : list byte * (fault + Z * FormatParser) :=
  match mode p with
  | AwaitingArgument =>
      ([], inl (Panic "advance: an argument is awaited"))
  | Scanning =>
      match side_channel_queue p, pending_directive p with
      | _ :: _, _ => ([], inr (Zpos (int_bytes h), p))
      | [], Some d =>
          ([], inr (arg_width d,
                    mkParser (format p) (cursor p) AwaitingArgument (Some d) []))
      | [], None =>
          match scan h InLiteral (skipn (cursor p) (format p)) with
          | (out, AtEnd) =>
              (out, inr (0, mkParser (format p) (List.length (format p))
                                     Scanning None []))
          | (out, Failed f) => (out, inl f)
          | (out, AtDirective d rest) =>
              let cursor' := (List.length (format p) - List.length rest)%nat in
              match requests_of d with
              | [] =>
                  (out, inr (arg_width d,
                             mkParser (format p) cursor' AwaitingArgument (Some d) []))
              | q =>
                  (out, inr (Zpos (int_bytes h),
                             mkParser (format p) cursor' Scanning (Some d) q))
              end
          end
      end
  end.

(** A from-argument value put in place of its marker.  A negative width is
    the left-justify flag and its magnitude; a negative precision is no
    precision. *)
Definition supply (r : SideRequest) (v : Z) (d : Directive) : Directive :=
  match r with
  | WidthRequest =>
      mkDirective (if v <? 0 then set_left_justify (flags d) else flags d)
                  (WidthLit (Z.abs v)) (precision d) (length_modifier d)
                  (conversion d) (arg_width d)
  | PrecisionRequest =>
      mkDirective (flags d) (width d)
                  (if v <? 0 then PrecAbsent else PrecLit v)
                  (length_modifier d) (conversion d) (arg_width d)
  end.

(** Modelled from the spec: [printf_parser_push_arg], absent from the
    sources, after [push_argument(bytes)] of section 4.1.  With a queued
    from-argument request the bytes are that integer; otherwise they are the
    pending directive's value, which is rendered, and the parser goes back to
    [Scanning].  A directive that cannot be rendered is an
    [UnsupportedConversion]; a call when nothing was requested panics. *)
Definition push_argument (h : Host) (p : FormatParser) (bytes : list byte)
    : list byte * (fault + FormatParser) :=
  match side_channel_queue p, pending_directive p, mode p with
  | r :: q, Some d, _ =>
      ([], inr (mkParser (format p) (cursor p) (mode p)
                         (Some (supply r (decode_signed bytes) d)) q))
  | [], Some d, AwaitingArgument =>
      match render h d bytes with
      | Some text =>
          (text, inr (mkParser (format p) (cursor p) Scanning None []))
      | None => ([], inl UnsupportedConversion)
      end
  | _, _, _ => ([], inl (Panic "push_argument: no argument was requested"))
  end.

(** *** The parser object behind [struct PrintfParser*] *)

Record Parser : Type := mkObject {
  core : FormatParser;
  sink : OutputSink
}.

Definition bytes_of (s : string) : list byte := list_ascii_of_string s.

(** Modelled from the spec: [printf_parser_new], absent from the sources: a
    parser over the format, writing to the unbounded console sink. *)
Definition parser_new (fmt : string) (w : World) : result Parser :=
  Ok (mkObject (new_parser (bytes_of fmt)) unbounded_sink) w.

(** Modelled from the spec: [printf_parser_new_with_buf], absent from the
    sources: a parser over the format, writing to the caller's buffer through
    a bounded sink; the terminator is in place from the start (section 4.3:
    even if zero content bytes are written). *)
Definition parser_new_with_buf (fmt : string) (buf size : Z) (w : World)
    : result Parser :=
  let (s, w') := sink_write (bounded_sink buf size) [] w in
  Ok (mkObject (new_parser (bytes_of fmt)) s) w'.

(** Modelled from the spec: [printf_parser_free], absent from the sources:
    the object is dropped; nothing observable changes. *)
Definition parser_free (p : Parser) (w : World) : result unit :=
  Ok tt w.

(** Modelled from the spec: [printf_parser_advance] and
    [printf_parser_push_arg] on the parser object: the core decides, the text
    it produced goes to the object's sink. *)
Definition parser_advance (h : Host) (p : Parser) (w : World)
    : result (Z * Parser) :=
  let (out, r) := advance h (core p) in
  let (s, w') := sink_write (sink p) out w in
  match r with
  | inr (n, c) => Ok (n, mkObject c s) w'
  | inl f => Fault f w'
  end.

Definition parser_push_arg (h : Host) (p : Parser) (arg : arg_ptr) (w : World)
    : result Parser :=
  let (out, r) := push_argument h (core p) arg in
  let (s, w') := sink_write (sink p) out w in
  match r with
  | inr c => Ok (mkObject c s) w'
  | inl f => Fault f w'
  end.

(** Modelled from the spec: the foreign interface as the specification
    describes it, with [pull] for the absent [va_arg_ptr]. *)
#[local] Instance interpreter (h : Host) : Foreign := {|
  PrintfParser := Parser;
  va_list := ArgumentCursor;
  stdout := 1;
  printf_parser_new := parser_new;
  printf_parser_new_with_buf := parser_new_with_buf;
  printf_parser_free := parser_free;
  printf_parser_push_arg := parser_push_arg h;
  printf_parser_advance := parser_advance h;
  va_arg_ptr := pull
|}.

(** An [int] argument as the caller pushes it: little-endian, [int_bytes]
    wide, two's complement. *)
Fixpoint le_bytes (n : nat) (v : Z) : list byte :=
  match n with
  | O => []
  | S n' => ascii_of_N (Z.to_N (v mod 256)) :: le_bytes n' (v / 256)
  end.

Definition int_arg (h : Host) (v : Z) : list byte :=
  le_bytes (Pos.to_nat (int_bytes h)) v.

(** An iteration budget that the loop of [do_printf] never uses up on this
    parser (shown below): one pass more than the format has bytes. *)
Definition enough (fmt : string) : nat := S (String.length fmt).

(** The number of times the body of the loop was entered: every pass starts
    with exactly one [printf_parser_advance] call. *)
Definition iterations (t : trace) : nat := List.length (filter is_advance t).

(** The number of passes that ran to the end of the body: the last statement
    of the body is the [printf_parser_push_arg] call. *)
Definition push_arg_returned (e : event) : bool :=
  match e with
  | (printf_parser_push_arg_call _, returned_void) => true
  | _ => false
  end.

Definition completed_iterations (t : trace) : nat :=
  List.length (filter push_arg_returned t).

(** The argument bytes that pulls have handed out. *)
Fixpoint bytes_pulled (t : trace) : Z :=
  match t with
  | [] => 0
  | (va_arg_ptr_call _, returned_ptr arg) :: t' => len arg + bytes_pulled t'
  | _ :: t' => bytes_pulled t'
  end.

(** A directive that needs an argument is reached ([advance] asks for [n]
    bytes, [n] not 0) when fewer than [n] bytes of the argument sequence are
    left. *)
Definition starved (args : ArgumentCursor) (t : trace) : Prop :=
  exists pre n post,
    t = pre ++ advance_returned n :: post
    /\ n <> 0
    /\ len args - bytes_pulled pre < n.

(** The same with "fully consumed" in place of "fewer than [n] left". *)
Definition starved_when_fully_consumed (args : ArgumentCursor) (t : trace) : Prop :=
  exists pre n post,
    t = pre ++ advance_returned n :: post
    /\ n <> 0
    /\ bytes_pulled pre = len args.

(** The run stopped at the pull that failed: that pull is its last call. *)
Definition aborted_at_pull (t : trace) : Prop :=
  exists pre n,
    t = pre ++ [advance_returned n; (va_arg_ptr_call n, no_return ArgumentExhausted)].

(** [ArgumentExhausted] is raised exactly when a directive is reached with
    too few argument bytes left, and the run then stops at the failed pull. *)
Definition exhausted_exactly_when_starved {A : Type} (args : ArgumentCursor)
    (r : trace * outcome A) : Prop :=
  (exhausted r <-> starved args (fst r))
  /\ (exhausted r -> aborted_at_pull (fst r)).

(** *** Invariants and measures used by the proofs *)

(** Two memories that hold the same bytes. *)
Definition mem_eq (m m' : Z -> byte) : Prop := forall a, m a = m' a.

(** What a bounded buffer holds once [out] has been sent to its sink: the
    first [capacity - 1] bytes of [out], then the terminator; nothing when the
    capacity is 0. *)
Definition bounded_image (m0 : Z -> byte) (buf capacity : Z) (out : list byte)
    : Z -> byte :=
  if 0 <? capacity then
    store_bytes m0 buf (firstn (Z.to_nat (capacity - 1)) out ++ [NUL])
  else m0.

Record unbounded_at (c0 out : list byte) (s : OutputSink) (w : World) : Prop := {
  ub_kind : kind s = Unbounded;
  ub_console : console w = c0 ++ out;
  ub_logical : logical_length s = len out
}.

Record bounded_at (m0 : Z -> byte) (c0 : list byte) (e0 : Z) (buf capacity : Z)
    (out : list byte) (s : OutputSink) (w : World) : Prop := {
  bd_kind : kind s = Bounded buf capacity;
  bd_written : written s = len (firstn (Z.to_nat (capacity - 1)) out);
  bd_logical : logical_length s = len out;
  bd_memory : mem_eq (memory w) (bounded_image m0 buf capacity out);
  bd_console : console w = c0;
  bd_errno : errno w = e0
}.

(** Two parser objects with the same core whose sinks stand in a relation
    [R]; two worlds for which some pair of sinks does; two outcomes of the
    same kind whose parts do. *)
Definition related (R : OutputSink -> World -> OutputSink -> World -> Prop)
    (p1 : Parser) (w1 : World) (p2 : Parser) (w2 : World) : Prop :=
  core p1 = core p2 /\ R (sink p1) w1 (sink p2) w2.

Definition sinks_related (R : OutputSink -> World -> OutputSink -> World -> Prop)
    (w1 w2 : World) : Prop :=
  exists s1 s2, R s1 w1 s2 w2.

Definition outcome_related (R : OutputSink -> World -> OutputSink -> World -> Prop)
    (o1 o2 : outcome Parser) : Prop :=
  match o1, o2 with
  | Returned p1 w1, Returned p2 w2 => related R p1 w1 p2 w2
  | Aborted f1 w1, Aborted f2 w2 => f1 = f2 /\ sinks_related R w1 w2
  | Unfinished w1, Unfinished w2 => sinks_related R w1 w2
  | _, _ => False
  end.

(** The console sink has received [out] since the console held [c1]; the
    buffer sink has received the same [out] since memory was [m0]. *)
Definition sinks_agree (m0 : Z -> byte) (c0 : list byte) (e0 buf capacity : Z)
    (c1 : list byte) (s1 : OutputSink) (w1 : World) (s2 : OutputSink) (w2 : World)
    : Prop :=
  exists out,
    unbounded_at c1 out s1 w1 /\ bounded_at m0 c0 e0 buf capacity out s2 w2.

(** The termination measure of the loop: the format bytes not yet scanned,
    plus the from-argument requests still queued, plus one for a directive
    that still waits for its own argument; and the number of [*] markers of a
    directive being read. *)
Definition potential (p : FormatParser) : nat :=
  (List.length (format p) - cursor p)
  + List.length (side_channel_queue p)
  + match pending_directive p with Some _ => 1 | None => 0 end.

(** A bound on the passes the loop can still make from a parser state.  At
    rest (no directive held, nothing queued) it is the number of format bytes
    not yet scanned, and 1 when none is left: the pass in which [advance]
    reports the end.  With a directive held it is one more than the
    measure. *)
Definition pass_bound (p : FormatParser) : nat :=
  match pending_directive p, side_channel_queue p with
  | None, [] => Nat.max 1 (List.length (format p) - cursor p)
  | _, _ => S (potential p)
  end.

Definition stars (d : Partial) : nat :=
  match p_width d with WidthFromArg => 1 | WidthLit _ => 0 end
  + match p_precision d with PrecFromArg => 1 | _ => 0 end.

Definition state_stars (st : ScanState) : nat :=
  match st with
  | InLiteral => 0
  | InDirective _ d => stars d
  end.

(** The entry points put a constructor call before the loop's trace and,
    when the loop returns, [printf_parser_free] after it. *)
Definition wrap (e0 : event) (r : trace * outcome Parser) : trace * outcome c_int :=
  match snd r with
  | Returned _ w' =>
      (e0 :: fst r ++ [(printf_parser_free_call, returned_void)], Returned None w')
  | Aborted f w' => (e0 :: fst r, Aborted f w')
  | Unfinished w' => (e0 :: fst r, Unfinished w')
  end.

(** A world with nothing on the console and zeroed memory, and one whose
    memory is all dots (what [test_printf] makes of its buffer with [memset]
    before it calls [snprintf]). *)
Definition blank : World := mkWorld 0 [] (fun _ => NUL).
Definition dotted : World := mkWorld 0 [] (fun _ => "."%char).

End Interp.

(** ** The sample program (res/sample_program/sample.c)

    A freestanding program that the kernel loads: [_start] receives a table of
    three host functions, stores them in three static function pointers, and
    the rest of the program calls the host through those pointers. *)
Module Sample.

(** A function pointer is the address it holds; 0 is the null pointer. *)
Definition fnptr : Type := Z.

(** [struct vtable] (vtable.h, not among the sources): the three members that
    [_start] reads. *)
Record vtable : Type := mkVtable {
  vt_print : fnptr;
  vt_exit : fnptr;
  vt_panic : fnptr
}.

(** The three statics of sample.c, each initialised to 0 (lines 3, 9, 15). *)
Record Statics : Type := mkStatics {
  EXIT : fnptr;
  PRINT : fnptr;
  PANIC : fnptr
}.

Definition initial_statics : Statics := mkStatics 0 0 0.

(** What is passed to a host function: an [int] or a string. *)
Variant argument : Type :=
| Code (n : Z)
| Text (s : string).

(** A call that reached the host: the address called and the argument. *)
Definition host_event : Type := (fnptr * argument)%type.

Section Program.

(** The host: its own state, and what the function at an address does to it
    when called; [None] is a function that does not return.  The statics are
    [static], so the host cannot name them. *)
Variable Host : Type.
Variable host_call : fnptr -> argument -> Host -> option Host.

(** How a routine ends: it returns, a host function it called does not
    return, or it calls through a null pointer. *)
Variant outcome (A : Type) : Type :=
| Done (a : A) (g : Statics) (h : Host)
| NoReturn (g : Statics) (h : Host)
| NullCall (g : Statics) (h : Host).

Arguments Done {A} a g h.
Arguments NoReturn {A} g h.
Arguments NullCall {A} g h.

Definition P (A : Type) : Type := Statics -> Host -> list host_event * outcome A.

Definition ret {A : Type} (a : A) : P A :=
  fun g h => ([], Done a g h).

Definition bind {A B : Type} (m : P A) (k : A -> P B) : P B :=
  fun g h =>
    match m g h with
    | (t, Done a g1 h1) => let (t', o) := k a g1 h1 in (t ++ t', o)
    | (t, NoReturn g1 h1) => (t, NoReturn g1 h1)
    | (t, NullCall g1 h1) => (t, NullCall g1 h1)
    end.

Definition statics_of {A : Type} (o : outcome A) : Statics :=
  match o with
  | Done _ g _ => g
  | NoReturn g _ => g
  | NullCall g _ => g
  end.

(** A call through a function pointer. *)
Definition call_through (fp : fnptr) (a : argument) : P unit :=
  fun g h =>
    if fp =? 0 then ([], NullCall g h)
    else
      match host_call fp a h with
      | Some h' => ([(fp, a)], Done tt g h')
      | None => ([(fp, a)], NoReturn g h)
      end.

Definition load (field : Statics -> fnptr) : P fnptr :=
  fun g h => ([], Done (field g) g h).

Definition store_static (update : Statics -> Statics) : P unit :=
  fun g h => ([], Done tt (update g) h).

(** [void exit_2(int code) { EXIT(code); }] *)
Definition exit_2 (code : Z) : P unit :=
  bind (load EXIT) (fun fp => call_through fp (Code code)).

(** [void print(char* s) { PRINT(s); }] *)
Definition print (s : string) : P unit :=
  bind (load PRINT) (fun fp => call_through fp (Text s)).

(** [void panic(char* s) { PANIC(s); }] *)
Definition panic (s : string) : P unit :=
  bind (load PANIC) (fun fp => call_through fp (Text s)).

(** The literal of line 22: "Hello world" and a newline. *)
Definition hello_world : string :=
  "Hello world" ++ String (ascii_of_nat 10) EmptyString.

(** [void print_and_exit(void)] (lines 21-25). *)
Definition print_and_exit : P unit :=
  bind (print hello_world) (fun _ =>
  bind (exit_2 30) (fun _ =>
  panic ">:(")).

(** [void _start(struct vtable* vtable)] (lines 27-32); [vt] is the struct
    behind the pointer. *)
Definition _start (vt : vtable) : P unit :=
  bind (store_static (fun g => mkStatics (EXIT g) (vt_print vt) (PANIC g))) (fun _ =>
  bind (store_static (fun g => mkStatics (vt_exit vt) (PRINT g) (PANIC g))) (fun _ =>
  bind (store_static (fun g => mkStatics (EXIT g) (PRINT g) (vt_panic vt))) (fun _ =>
  print_and_exit))).

(** The three host calls of [print_and_exit] through the table [vt]. *)
Definition greeting (vt : vtable) : list host_event :=
  [(vt_print vt, Text hello_world); (vt_exit vt, Code 30); (vt_panic vt, Text ">:(")].

End Program.

Arguments Done {Host A} a g h.
Arguments NoReturn {Host A} g h.
Arguments NullCall {Host A} g h.

(** Two hosts for runs: one whose functions all return and count the calls,
    and one whose function at address 2 (its [exit]) does not return. *)
Definition counting_host : fnptr -> argument -> nat -> option nat :=
  fun _ _ n => Some (S n).

Definition exiting_host : fnptr -> argument -> nat -> option nat :=
  fun fp _ n => if fp =? 2 then None else Some (S n).

End Sample.

(** * Properties *)

(** ** The stub layer *)

(** C7: each of the thirteen unimplemented routines (strstr, strchr,
    strrchr, atoi, atof, abs, exit, fprintf, rename, remove, sscanf, fabs,
    isspace), on every argument and in every world, does exactly one thing:
    it calls [panic_c] with its own name followed by " unimplemented", and
    control does not come back; the world is as it was. *)
Theorem unimplemented_stubs_panic :
  forall (c : stub_call) (w : World),
    run_stub c w =
    ([(panic_c_call (stub_name c ++ " unimplemented"),
       no_return (Panic (stub_name c ++ " unimplemented")))],
     Aborted (Panic (stub_name c ++ " unimplemented")) w).
Proof.
  intros c w; destruct c; reflexivity.
Qed.

(** C8: [system] returns 1, a failing status, for every command string and
    changes nothing; [mkdir] and [fflush] make no foreign call and leave the
    world as it was, for every argument. *)
Theorem system_fails_mkdir_fflush_do_nothing :
  forall (command path : string) (mode stream : Z) (w : World),
    (exists status, system command w = ([], Returned (Some status) w)
                    /\ status <> 0)
    /\ (exists r, mkdir path mode w = ([], Returned r w))
    /\ (exists r, fflush stream w = ([], Returned r w)).
Proof.
  intros command path mode_ stream w.
  split; [ exists 1; split; [ reflexivity | discriminate ] | ].
  split; exists None; reflexivity.
Qed.

(** ** The loop of [do_printf] *)

Section Orchestrator.
Context {F : Foreign}.

(** One pass through the body of the loop, spelled out on the foreign
    calls. *)
Lemma do_printf_loop_unfold :
  forall fuel parser args w,
    do_printf_loop (S fuel) parser args w =
    match printf_parser_advance parser w with
    | Fault f w1 => ([(printf_parser_advance_call, no_return f)], Aborted f w1)
    | Ok (n, parser1) w1 =>
        if n =? 0 then ([advance_returned 0], Returned parser1 w1)
        else
          match va_arg_ptr args n with
          | inl f =>
              ([advance_returned n; (va_arg_ptr_call n, no_return f)],
               Aborted f w1)
          | inr (arg, args') =>
              match printf_parser_push_arg parser1 arg w1 with
              | Fault f w2 =>
                  ([advance_returned n; pulled n arg;
                    (printf_parser_push_arg_call arg, no_return f)],
                   Aborted f w2)
              | Ok parser2 w2 =>
                  let (t, o) := do_printf_loop fuel parser2 args' w2 in
                  (advance_returned n :: pulled n arg :: pushed arg :: t, o)
              end
          end
    end.
Proof.
  intros fuel parser args w.
  cbn [do_printf_loop].
  unfold bind at 1, call_advance, foreign.
  destruct (printf_parser_advance parser w) as [[n parser1] w1 | f w1];
    [ | reflexivity ].
  cbn [fst].
  destruct (Z.eqb_spec n 0) as [-> | Hn]; [ reflexivity | ].
  unfold bind at 1, call_va_arg_ptr.
  destruct (va_arg_ptr args n) as [f | [arg args']]; [ reflexivity | ].
  unfold bind at 1, call_push_arg, foreign.
  destruct (printf_parser_push_arg parser1 arg w1) as [parser2 w2 | f w2];
    [ | reflexivity ].
  destruct (do_printf_loop fuel parser2 args' w2) as [t o].
  reflexivity.
Qed.

Lemma do_printf_loop_orchestrated :
  forall fuel parser args w,
    orchestrated (fst (do_printf_loop fuel parser args w))
                 (ending_of (snd (do_printf_loop fuel parser args w))).
Proof.
  induction fuel as [| fuel IH]; intros parser args w.
  - cbn. constructor.
  - rewrite do_printf_loop_unfold.
    destruct (printf_parser_advance parser w) as [[n parser1] w1 | f w1];
      [ | cbn; constructor ].
    destruct (Z.eqb_spec n 0) as [-> | Hn]; [ cbn; constructor | ].
    destruct (va_arg_ptr args n) as [f | [arg args']];
      [ cbn; constructor; assumption | ].
    destruct (printf_parser_push_arg parser1 arg w1) as [parser2 w2 | f w2];
      [ | cbn; constructor; assumption ].
    specialize (IH parser2 args' w2).
    destruct (do_printf_loop fuel parser2 args' w2) as [t o].
    cbn in *. constructor; assumption.
Qed.

(** The loop head is reached, and [printf_parser_advance] called, once per
    unit of fuel until the run ends: a run that has not ended made [fuel]
    such calls, a run that ended made at least one and at most [fuel]. *)
Lemma do_printf_loop_passes :
  forall fuel parser args w,
    match ending_of (snd (do_printf_loop fuel parser args w)) with
    | Running =>
        List.length (filter is_advance (fst (do_printf_loop fuel parser args w)))
        = fuel
    | _ =>
        (1 <= List.length
                (filter is_advance (fst (do_printf_loop fuel parser args w)))
           <= fuel)%nat
    end.
Proof.
  induction fuel as [| fuel IH]; intros parser args w.
  - reflexivity.
  - rewrite do_printf_loop_unfold.
    destruct (printf_parser_advance parser w) as [[n parser1] w1 | f w1];
      [ | cbn; lia ].
    destruct (Z.eqb_spec n 0) as [-> | Hn]; [ cbn; lia | ].
    destruct (va_arg_ptr args n) as [f | [arg args']]; [ cbn; lia | ].
    destruct (printf_parser_push_arg parser1 arg w1) as [parser2 w2 | f w2];
      [ | cbn; lia ].
    specialize (IH parser2 args' w2).
    destruct (do_printf_loop fuel parser2 args' w2) as [t o].
    cbn in *. destruct o; cbn in *; lia.
Qed.

End Orchestrator.

(** ** What an orchestrated trace looks like *)


Lemma nil_eq_app_cons :
  forall (A : Type) (e : A) (pre post : list A), [] = pre ++ e :: post -> False.
Proof.
  intros A e pre post H. destruct pre; discriminate H.
Qed.

(** Nothing follows an [advance] that returned 0. *)
Lemma orchestrated_zero_is_last :
  forall t e, orchestrated t e ->
  forall pre post, t = pre ++ advance_returned 0 :: post -> post = [].
Proof.
  unfold advance_returned, pulled, pushed.
  induction 1 as [| n arg rest e Hn Horch IH | | f | n f Hn | n arg f Hn];
    intros pre post Heq.
  - peel Heq; [ symmetry; assumption | ].
    exfalso; eapply nil_eq_app_cons; eassumption.
  - peel Heq; [ inversion Hx; congruence | ].
    peel Heq; [ discriminate Hx | ].
    peel Heq; [ discriminate Hx | ].
    eapply IH; eassumption.
  - exfalso; eapply nil_eq_app_cons; eassumption.
  - peel Heq; [ discriminate Hx | ].
    exfalso; eapply nil_eq_app_cons; eassumption.
  - peel Heq; [ inversion Hx; congruence | ].
    peel Heq; [ discriminate Hx | ].
    exfalso; eapply nil_eq_app_cons; eassumption.
  - peel Heq; [ inversion Hx; congruence | ].
    peel Heq; [ discriminate Hx | ].
    peel Heq; [ discriminate Hx | ].
    exfalso; eapply nil_eq_app_cons; eassumption.
Qed.

(** A [push_arg] call comes right after the pull of its argument, which comes
    right after an [advance] that returned the pulled size, not 0. *)
Lemma orchestrated_push_follows_pull :
  forall t e, orchestrated t e ->
  forall pre arg r post,
    t = pre ++ (printf_parser_push_arg_call arg, r) :: post ->
    exists pre' n,
      n <> 0 /\ pre = pre' ++ [advance_returned n; pulled n arg].
Proof.
  unfold advance_returned, pulled, pushed.
  induction 1 as [| n arg0 rest e Hn Horch IH | | f | n f Hn | n arg0 f Hn];
    intros pre arg r post Heq.
  - peel Heq; [ discriminate Hx | ].
    exfalso; eapply nil_eq_app_cons; eassumption.
  - peel Heq; [ discriminate Hx | ].
    peel Heq; [ discriminate Hx | ].
    peel Heq.
    + inversion Hx; subst. exists [], n. split; [ assumption | reflexivity ].
    + destruct (IH _ _ _ _ Heq) as (pre' & m & Hm & ->).
      exists ((printf_parser_advance_call, returned_int n)
              :: (va_arg_ptr_call n, returned_ptr arg0)
              :: (printf_parser_push_arg_call arg0, returned_void) :: pre'), m.
      split; [ assumption | reflexivity ].
  - exfalso; eapply nil_eq_app_cons; eassumption.
  - peel Heq; [ discriminate Hx | ].
    exfalso; eapply nil_eq_app_cons; eassumption.
  - peel Heq; [ discriminate Hx | ].
    peel Heq; [ discriminate Hx | ].
    exfalso; eapply nil_eq_app_cons; eassumption.
  - peel Heq; [ discriminate Hx | ].
    peel Heq; [ discriminate Hx | ].
    peel Heq.
    + inversion Hx; subst. exists [], n. split; [ assumption | reflexivity ].
    + exfalso; eapply nil_eq_app_cons; eassumption.
Qed.

(** A run that stopped ends with an [advance] that returned 0. *)
Lemma orchestrated_stopped_ends_with_zero :
  forall t e, orchestrated t e -> e = Stopped ->
  exists pre, t = pre ++ [advance_returned 0].
Proof.
  induction 1 as [| n arg rest e Hn Horch IH | | f | n f Hn | n arg f Hn];
    intros He; try discriminate He.
  - exists []. reflexivity.
  - destruct (IH He) as (pre & ->).
    exists (advance_returned n :: pulled n arg :: pushed arg :: pre).
    reflexivity.
Qed.

(** Among the calls that reach the parser, the one just before a [push_arg]
    is an [advance] that returned a size other than 0. *)
Lemma orchestrated_parser_calls :
  forall t e, orchestrated t e ->
  forall pre x post,
    parser_calls t = pre ++ x :: post -> is_push_arg x = true ->
    exists pre' n, n <> 0 /\ pre = pre' ++ [advance_returned n].
Proof.
  unfold advance_returned, pulled, pushed, parser_calls.
  induction 1 as [| n arg0 rest e Hn Horch IH | | f | n f Hn | n arg0 f Hn];
    intros pre x post Heq Hx0; cbn in Heq.
  - peel Heq; [ subst x; discriminate Hx0 | ].
    exfalso; eapply nil_eq_app_cons; eassumption.
  - peel Heq; [ subst x; discriminate Hx0 | ].
    peel Heq.
    + exists [], n. split; [ assumption | reflexivity ].
    + destruct (IH _ _ _ Heq Hx0) as (pre' & m & Hm & ->).
      exists ((printf_parser_advance_call, returned_int n)
              :: (printf_parser_push_arg_call arg0, returned_void) :: pre'), m.
      split; [ assumption | reflexivity ].
  - exfalso; eapply nil_eq_app_cons; eassumption.
  - peel Heq; [ subst x; discriminate Hx0 | ].
    exfalso; eapply nil_eq_app_cons; eassumption.
  - peel Heq; [ subst x; discriminate Hx0 | ].
    exfalso; eapply nil_eq_app_cons; eassumption.
  - peel Heq; [ subst x; discriminate Hx0 | ].
    peel Heq.
    + exists [], n. split; [ assumption | reflexivity ].
    + exfalso; eapply nil_eq_app_cons; eassumption.
Qed.

Section OrchestratorProperties.
Context {F : Foreign}.

(** C1: every run of [do_printf] is a run of the orchestrator contract, and
    it makes the calls of the contract.
    (1) One pass, on the foreign functions themselves: with fuel for one more
    pass, [do_printf] calls [printf_parser_advance] on its parser; when that
    faults the run ends there; when it returns 0 the run returns at once,
    with no further call; when it returns [n] other than 0, [do_printf] calls
    [va_arg_ptr] once, with size [n], on its argument list, then
    [printf_parser_push_arg] once, on the parser that [advance] left and the
    pointer that [va_arg_ptr] gave, and only then goes back to
    [printf_parser_advance], on the parser that [push_arg] left and the rest
    of the argument list.  With no fuel nothing is called.
    (2) The whole trace is a run of the contract, ended as the run ended.
    (3) No pass is skipped: a run that has not ended by the time its fuel is
    used up has called [printf_parser_advance] once per unit of fuel; a run
    that ended has called it at least once. *)
Theorem do_printf_follows_the_contract :
  forall (fuel : nat) (parser : PrintfParser) (format : string)
         (args : va_list) (w : World),
    do_printf 0 parser format args w = ([], Unfinished w)
    /\ do_printf (S fuel) parser format args w =
       match printf_parser_advance parser w with
       | Fault f w1 => ([(printf_parser_advance_call, no_return f)], Aborted f w1)
       | Ok (n, parser1) w1 =>
           if n =? 0 then ([advance_returned 0], Returned parser1 w1)
           else
             match va_arg_ptr args n with
             | inl f =>
                 ([advance_returned n; (va_arg_ptr_call n, no_return f)],
                  Aborted f w1)
             | inr (arg, args') =>
                 match printf_parser_push_arg parser1 arg w1 with
                 | Fault f w2 =>
                     ([advance_returned n; pulled n arg;
                       (printf_parser_push_arg_call arg, no_return f)],
                      Aborted f w2)
                 | Ok parser2 w2 =>
                     (advance_returned n :: pulled n arg :: pushed arg
                        :: fst (do_printf fuel parser2 format args' w2),
                      snd (do_printf fuel parser2 format args' w2))
                 end
             end
       end
    /\ orchestrated (fst (do_printf fuel parser format args w))
                    (ending_of (snd (do_printf fuel parser format args w)))
    /\ match ending_of (snd (do_printf fuel parser format args w)) with
       | Running =>
           List.length
             (filter is_advance (fst (do_printf fuel parser format args w)))
           = fuel
       | _ =>
           (1 <= List.length
                   (filter is_advance
                      (fst (do_printf fuel parser format args w)))
              <= fuel)%nat
       end.
Proof.
  intros fuel parser format args w.
  unfold do_printf.
  split; [ reflexivity | ].
  split; [ | split ].
  - rewrite do_printf_loop_unfold.
    destruct (printf_parser_advance parser w) as [[n parser1] w1 | f w1];
      [ | reflexivity ].
    destruct (n =? 0); [ reflexivity | ].
    destruct (va_arg_ptr args n) as [f | [arg args']]; [ reflexivity | ].
    destruct (printf_parser_push_arg parser1 arg w1) as [parser2 w2 | f w2];
      [ | reflexivity ].
    destruct (do_printf_loop fuel parser2 args' w2) as [t o]. reflexivity.
  - apply do_printf_loop_orchestrated.
  - apply do_printf_loop_passes.
Qed.

(** C9: in every run of [do_printf], (1) no call at all, so no
    [printf_parser_push_arg], follows a [printf_parser_advance] that returned
    0; (2) every [printf_parser_push_arg] call is preceded, with only the
    [va_arg_ptr] pull of its argument in between, by a [printf_parser_advance]
    that returned the pulled size, which is not 0; (3) among the calls that
    reach the parser, the call just before a [printf_parser_push_arg] is a
    [printf_parser_advance] that returned a size other than 0. *)
Theorem push_arg_only_after_nonzero_advance :
  forall (fuel : nat) (parser : PrintfParser) (format : string)
         (args : va_list) (w : World),
    let t := fst (do_printf fuel parser format args w) in
    (forall pre post, t = pre ++ advance_returned 0 :: post -> post = [])
    /\ (forall pre arg r post,
          t = pre ++ (printf_parser_push_arg_call arg, r) :: post ->
          exists pre' n,
            n <> 0 /\ pre = pre' ++ [advance_returned n; pulled n arg])
    /\ (forall pre x post,
          parser_calls t = pre ++ x :: post -> is_push_arg x = true ->
          exists pre' n, n <> 0 /\ pre = pre' ++ [advance_returned n]).
Proof.
  intros fuel parser format args w t.
  pose proof (do_printf_loop_orchestrated fuel parser args w) as Horch.
  fold (do_printf fuel parser format args w) in Horch.
  fold t in Horch.
  repeat split.
  - eapply orchestrated_zero_is_last; eassumption.
  - eapply orchestrated_push_follows_pull; eassumption.
  - eapply orchestrated_parser_calls; eassumption.
Qed.


(** *** The frame on [errno] *)

Lemma errno_untouched_ret :
  forall (A : Type) (a : A), errno_untouched (ret a).
Proof. intros A a w e. split; reflexivity. Qed.

Lemma errno_untouched_unfinished :
  forall (A : Type), errno_untouched (@unfinished A).
Proof. intros A w e. split; reflexivity. Qed.

Lemma errno_untouched_bind :
  forall (A B : Type) (m : M A) (k : A -> M B),
    errno_untouched m -> (forall a, errno_untouched (k a)) ->
    errno_untouched (bind m k).
Proof.
  intros A B m k Hm Hk w e.
  destruct (Hm w e) as [Hm1 Hm2].
  unfold errno_untouched_at, bind. rewrite Hm2.
  destruct (m w) as [t [a w1 | f w1 | w1]]; cbn in *;
    try (split; [ assumption | reflexivity ]).
  destruct (Hk a w1 e) as [Hk1 Hk2]. rewrite Hk2.
  destruct (k a w1) as [t' o']. cbn in *.
  split; [ congruence | reflexivity ].
Qed.

Lemma errno_untouched_foreign :
  forall (A : Type) (c : call) (reply_of : A -> reply) (f : World -> result A),
    foreign_errno_untouched f -> errno_untouched (foreign c reply_of f).
Proof.
  intros A c reply_of f Hf w e.
  destruct (Hf w e) as [H1 H2].
  unfold errno_untouched_at, foreign. rewrite H2.
  destruct (f w); cbn in *; split; [ assumption | reflexivity | assumption | reflexivity ].
Qed.

Lemma errno_untouched_va_arg_ptr :
  forall args size, errno_untouched (call_va_arg_ptr args size).
Proof.
  intros args size w e. unfold errno_untouched_at, call_va_arg_ptr.
  destruct (va_arg_ptr args size) as [f | [arg args']]; split; reflexivity.
Qed.

Hypothesis parser_leaves_errno : errno_is_foreign_to_the_parser.

Lemma errno_untouched_do_printf_loop :
  forall fuel parser args, errno_untouched (do_printf_loop fuel parser args).
Proof.
  induction fuel as [| fuel IH]; intros parser args.
  - apply errno_untouched_unfinished.
  - cbn [do_printf_loop].
    apply errno_untouched_bind.
    + apply errno_untouched_foreign, advance_leaves_errno, parser_leaves_errno.
    + intros [arg_size parser1].
      destruct (arg_size =? 0); [ apply errno_untouched_ret | ].
      apply errno_untouched_bind; [ apply errno_untouched_va_arg_ptr | ].
      intros [arg args'].
      apply errno_untouched_bind; [ | intros parser2; apply IH ].
      apply errno_untouched_foreign, push_arg_leaves_errno, parser_leaves_errno.
Qed.

Lemma errno_untouched_vfprintf :
  forall fuel stream format args,
    errno_untouched (vfprintf fuel stream format args).
Proof.
  intros fuel stream format args. unfold vfprintf.
  apply errno_untouched_bind.
  - apply errno_untouched_foreign, new_leaves_errno, parser_leaves_errno.
  - intros parser. apply errno_untouched_bind.
    + apply errno_untouched_do_printf_loop.
    + intros parser'.
      apply errno_untouched_bind; [ | intros; apply errno_untouched_ret ].
      apply errno_untouched_foreign, free_leaves_errno, parser_leaves_errno.
Qed.

Lemma errno_untouched_vsnprintf :
  forall fuel str size format args,
    errno_untouched (vsnprintf fuel str size format args).
Proof.
  intros fuel str size format args. unfold vsnprintf.
  apply errno_untouched_bind.
  - apply errno_untouched_foreign, new_with_buf_leaves_errno, parser_leaves_errno.
  - intros parser. apply errno_untouched_bind.
    + apply errno_untouched_do_printf_loop.
    + intros parser'.
      apply errno_untouched_bind; [ | intros; apply errno_untouched_ret ].
      apply errno_untouched_foreign, free_leaves_errno, parser_leaves_errno.
Qed.

(** C6: as long as the foreign parser functions neither write nor read
    [errno], neither does any formatting call.  For [printf], [snprintf],
    [vfprintf], [vsnprintf] and [do_printf], from every world [w]: however the
    call ends, [errno] then holds the value it held before; and with any other
    value [e] in [errno] the call makes the same foreign calls and ends the
    same way, [e] still in [errno].  (The C bodies never name [errno]; the
    parser is the only code they run.) *)
Theorem formatting_calls_keep_errno :
  forall (fuel : nat) (format : string) (args : va_list) (buf size stream : Z)
         (parser : PrintfParser) (w : World) (e : Z),
    errno_untouched_at (printf fuel format args) w e
    /\ errno_untouched_at (snprintf fuel buf size format args) w e
    /\ errno_untouched_at (vfprintf fuel stream format args) w e
    /\ errno_untouched_at (vsnprintf fuel buf size format args) w e
    /\ errno_untouched_at (do_printf fuel parser format args) w e.
Proof.
  intros fuel format args buf size stream parser w e.
  split; [ | split; [ | split; [ | split ] ] ].
  - apply (errno_untouched_bind _ _ (vfprintf fuel stdout format args));
      [ apply errno_untouched_vfprintf | intros; apply errno_untouched_ret ].
  - apply (errno_untouched_bind _ _ (vsnprintf fuel buf size format args));
      [ apply errno_untouched_vsnprintf | intros; apply errno_untouched_ret ].
  - apply errno_untouched_vfprintf.
  - apply errno_untouched_vsnprintf.
  - apply errno_untouched_do_printf_loop.
Qed.

End OrchestratorProperties.

(** ** The calls around the loop *)

Lemma orchestrated_has_no_frame_calls :
  forall t e, orchestrated t e ->
  filter is_constructor t = [] /\ filter is_free t = [].
Proof.
  induction 1 as [| n arg rest e Hn Horch IH | | f | n f Hn | n arg f Hn];
    cbn; try (split; reflexivity).
  exact IH.
Qed.

Section EntryPointTraces.
Context {F : Foreign}.

(** A routine that hands back no value whenever it returns. *)
Lemma then_return_none_is_neutral :
  forall (m : M c_int) (w : World),
    match snd (m w) with
    | Returned v _ => v = None
    | _ => True
    end ->
    bind m (fun _ => ret None) w = m w.
Proof.
  intros m w H. unfold bind, ret.
  destruct (m w) as [t [v w1 | f w1 | w1]]; cbn in *; try reflexivity.
  subst v. rewrite app_nil_r. reflexivity.
Qed.

Lemma construct_run_free_returns_none :
  forall fuel c construct format args w,
    match snd (construct_run_free fuel c construct format args w) with
    | Returned v _ => v = None
    | _ => True
    end.
Proof.
  intros fuel c construct format args w.
  unfold construct_run_free, bind, call_free, foreign, ret.
  destruct (construct w) as [p w1 | f w1]; cbn; [ | exact I ].
  destruct (do_printf fuel p format args w1) as [t [p1 w2 | f w2 | w2]];
    cbn; try exact I.
  destruct (printf_parser_free p1 w2); cbn; [ reflexivity | exact I ].
Qed.

Lemma construct_run_free_framed :
  forall fuel c construct format args w,
    framed c (fst (construct_run_free fuel c construct format args w))
           (ending_of (snd (construct_run_free fuel c construct format args w))).
Proof.
  intros fuel c construct format args w.
  unfold construct_run_free, bind, call_free, foreign, ret.
  destruct (construct w) as [p w1 | f w1]; cbn; [ | constructor ].
  pose proof (do_printf_loop_orchestrated fuel p args w1) as Horch.
  fold (do_printf fuel p format args w1) in Horch.
  destruct (do_printf fuel p format args w1) as [t [p1 w2 | f w2 | w2]];
    cbn in *.
  - destruct (printf_parser_free p1 w2) as [u w3 | f w3]; cbn.
    + rewrite ?app_nil_r. apply framed_freed. exact Horch.
    + apply framed_free_fault. exact Horch.
  - apply framed_loop_cut; [ exact Horch | discriminate ].
  - apply framed_loop_cut; [ exact Horch | discriminate ].
Qed.

(** X2: the variadic wrappers add nothing to the calls they make:
    [printf(format, ...)] is [vfprintf] on the same format and arguments,
    whatever stream [vfprintf] is given, and [snprintf] is [vsnprintf]: the
    same foreign calls, the same end, the same world, and no value either
    way. *)
Theorem variadic_wrappers_add_nothing :
  forall (fuel : nat) (format : string) (args : va_list) (buf size stream : Z)
         (w : World),
    printf fuel format args w = vfprintf fuel stream format args w
    /\ snprintf fuel buf size format args w
       = vsnprintf fuel buf size format args w.
Proof.
  intros fuel format args buf size stream w. split.
  - unfold printf.
    rewrite then_return_none_is_neutral; [ reflexivity | ].
    apply (construct_run_free_returns_none fuel (printf_parser_new_call format)
             (printf_parser_new format)).
  - unfold snprintf.
    rewrite then_return_none_is_neutral; [ reflexivity | ].
    apply (construct_run_free_returns_none fuel
             (printf_parser_new_with_buf_call format buf (to_uint32 size))
             (printf_parser_new_with_buf format buf (to_uint32 size))).
Qed.

(** X3: the foreign calls of a formatting call come in three parts, in this
    order: the constructor ([printf_parser_new] on the format for [vfprintf]
    and [printf], [printf_parser_new_with_buf] on the format, the buffer and
    the size as a 32-bit value for [vsnprintf] and [snprintf]); if it
    returned, a run of the [do_printf] loop; if that returned,
    [printf_parser_free], which is then the last call.  A fault in any part
    ends the call there. *)
Theorem formatting_calls_frame_the_loop :
  forall (fuel : nat) (format : string) (args : va_list) (buf size stream : Z)
         (w : World),
    framed (printf_parser_new_call format)
           (fst (vfprintf fuel stream format args w))
           (ending_of (snd (vfprintf fuel stream format args w)))
    /\ framed (printf_parser_new_call format)
              (fst (printf fuel format args w))
              (ending_of (snd (printf fuel format args w)))
    /\ framed (printf_parser_new_with_buf_call format buf (to_uint32 size))
              (fst (vsnprintf fuel buf size format args w))
              (ending_of (snd (vsnprintf fuel buf size format args w)))
    /\ framed (printf_parser_new_with_buf_call format buf (to_uint32 size))
              (fst (snprintf fuel buf size format args w))
              (ending_of (snd (snprintf fuel buf size format args w))).
Proof.
  intros fuel format args buf size stream w.
  assert (Hv : forall stream',
             framed (printf_parser_new_call format)
                    (fst (vfprintf fuel stream' format args w))
                    (ending_of (snd (vfprintf fuel stream' format args w)))).
  { intros stream'.
    apply (construct_run_free_framed fuel (printf_parser_new_call format)
             (printf_parser_new format)). }
  assert (Hs : framed (printf_parser_new_with_buf_call format buf (to_uint32 size))
                      (fst (vsnprintf fuel buf size format args w))
                      (ending_of (snd (vsnprintf fuel buf size format args w)))).
  { apply (construct_run_free_framed fuel
             (printf_parser_new_with_buf_call format buf (to_uint32 size))
             (printf_parser_new_with_buf format buf (to_uint32 size))). }
  split; [ apply Hv | ].
  split.
  - unfold printf. rewrite then_return_none_is_neutral; [ apply Hv | ].
    apply (construct_run_free_returns_none fuel (printf_parser_new_call format)
             (printf_parser_new format)).
  - split; [ exact Hs | ].
    unfold snprintf. rewrite then_return_none_is_neutral; [ exact Hs | ].
    apply (construct_run_free_returns_none fuel
             (printf_parser_new_with_buf_call format buf (to_uint32 size))
             (printf_parser_new_with_buf format buf (to_uint32 size))).
Qed.

(** What the three-part shape says about creation and release. *)
Lemma framed_pairs_constructor_and_free :
  forall c t e,
    is_constructor (c, returned_parser) = true ->
    is_free (c, returned_parser) = false ->
    framed c t e ->
    constructions t = 1%nat
    /\ ((frees t = 0%nat /\ e <> Stopped)
        \/ (frees t = 1%nat
            /\ exists pre r,
                 t = pre ++ [advance_returned 0; (printf_parser_free_call, r)]
                 /\ (e = Stopped <-> r = returned_void))).
Proof.
  intros c t e Hc Hf H.
  assert (Hc' : forall r, is_constructor (c, r) = true) by (intros r; exact Hc).
  assert (Hf' : forall r, is_free (c, r) = false) by (intros r; exact Hf).
  unfold constructions, frees.
  destruct H as [f | loop e Horch He | loop f Horch | loop Horch].
  - cbn [filter]. rewrite Hc', Hf'. cbn.
    split; [ reflexivity | left; split; [ reflexivity | discriminate ] ].
  - destruct (orchestrated_has_no_frame_calls _ _ Horch) as [H1 H2].
    cbn [filter]. rewrite Hc', Hf', H1, H2. cbn.
    split; [ reflexivity | left; split; [ reflexivity | exact He ] ].
  - destruct (orchestrated_has_no_frame_calls _ _ Horch) as [H1 H2].
    destruct (orchestrated_stopped_ends_with_zero _ _ Horch eq_refl) as [pre Hpre].
    cbn [filter]. rewrite Hc', Hf', !filter_app, H1, H2. cbn.
    split; [ reflexivity | right; split; [ reflexivity | ] ].
    exists ((c, returned_parser) :: pre), (no_return f).
    split; [ rewrite Hpre; cbn; rewrite <- app_assoc; reflexivity | ].
    split; intros H; discriminate H.
  - destruct (orchestrated_has_no_frame_calls _ _ Horch) as [H1 H2].
    destruct (orchestrated_stopped_ends_with_zero _ _ Horch eq_refl) as [pre Hpre].
    cbn [filter]. rewrite Hc', Hf', !filter_app, H1, H2. cbn.
    split; [ reflexivity | right; split; [ reflexivity | ] ].
    exists ((c, returned_parser) :: pre), returned_void.
    split; [ rewrite Hpre; cbn; rewrite <- app_assoc; reflexivity | ].
    split; reflexivity.
Qed.

(** X4: every [vfprintf] and [vsnprintf] call creates exactly one parser, and
    releases it at most once.  Either [printf_parser_free] is never called,
    and then the call did not return (the constructor or the loop faulted, or
    the run is unfinished: the parser, if one was made, is not released); or
    it is called exactly once, as the last call, right after a
    [printf_parser_advance] that returned 0, and the call returns exactly
    when [printf_parser_free] does. *)
Theorem parser_is_freed_exactly_when_the_loop_returns :
  forall (fuel : nat) (format : string) (args : va_list) (buf size stream : Z)
         (w : World),
    (constructions (fst (vfprintf fuel stream format args w)) = 1%nat
     /\ ((frees (fst (vfprintf fuel stream format args w)) = 0%nat
          /\ ending_of (snd (vfprintf fuel stream format args w)) <> Stopped)
         \/ (frees (fst (vfprintf fuel stream format args w)) = 1%nat
             /\ exists pre r,
                  fst (vfprintf fuel stream format args w)
                  = pre ++ [advance_returned 0; (printf_parser_free_call, r)]
                  /\ (ending_of (snd (vfprintf fuel stream format args w)) = Stopped
                      <-> r = returned_void))))
    /\ (constructions (fst (vsnprintf fuel buf size format args w)) = 1%nat
        /\ ((frees (fst (vsnprintf fuel buf size format args w)) = 0%nat
             /\ ending_of (snd (vsnprintf fuel buf size format args w)) <> Stopped)
            \/ (frees (fst (vsnprintf fuel buf size format args w)) = 1%nat
                /\ exists pre r,
                     fst (vsnprintf fuel buf size format args w)
                     = pre ++ [advance_returned 0; (printf_parser_free_call, r)]
                     /\ (ending_of (snd (vsnprintf fuel buf size format args w))
                         = Stopped
                         <-> r = returned_void)))).
Proof.
  intros fuel format args buf size stream w. split.
  - apply (framed_pairs_constructor_and_free (printf_parser_new_call format));
      [ reflexivity | reflexivity | ].
    apply (construct_run_free_framed fuel (printf_parser_new_call format)
             (printf_parser_new format)).
  - apply (framed_pairs_constructor_and_free
             (printf_parser_new_with_buf_call format buf (to_uint32 size)));
      [ reflexivity | reflexivity | ].
    apply (construct_run_free_framed fuel
             (printf_parser_new_with_buf_call format buf (to_uint32 size))
             (printf_parser_new_with_buf format buf (to_uint32 size))).
Qed.

(** X5: [vsnprintf] and [snprintf] hand their [size_t] size to the parser as a
    [uint32_t]: the constructor sees the size modulo 2^32, and two sizes that
    differ by a multiple of 2^32 give the same call in every respect (on a
    target whose [size_t] is wider than 32 bits, a size of 2^32 is a capacity
    of 0). *)
Theorem bounded_size_is_taken_modulo_2_32 :
  forall (fuel : nat) (format : string) (args : va_list) (buf size k : Z)
         (w : World),
    vsnprintf fuel buf (size + k * 2 ^ 32) format args w
    = vsnprintf fuel buf size format args w
    /\ snprintf fuel buf (size + k * 2 ^ 32) format args w
       = snprintf fuel buf size format args w
    /\ exists r t,
         fst (vsnprintf fuel buf size format args w)
         = (printf_parser_new_with_buf_call format buf (size mod 2 ^ 32), r) :: t.
Proof.
  intros fuel format args buf size k w.
  assert (Hmod : to_uint32 (size + k * 2 ^ 32) = to_uint32 size).
  { unfold to_uint32. apply Z_mod_plus_full. }
  split; [ unfold vsnprintf; rewrite Hmod; reflexivity | ].
  split; [ unfold snprintf, vsnprintf; rewrite Hmod; reflexivity | ].
  pose proof (construct_run_free_framed fuel
                (printf_parser_new_with_buf_call format buf (to_uint32 size))
                (printf_parser_new_with_buf format buf (to_uint32 size))
                format args w) as H.
  change (construct_run_free fuel
            (printf_parser_new_with_buf_call format buf (to_uint32 size))
            (printf_parser_new_with_buf format buf (to_uint32 size)) format args w)
    with (vsnprintf fuel buf size format args w) in H.
  unfold to_uint32 in H.
  destruct H; eexists _, _; reflexivity.
Qed.

End EntryPointTraces.

(** ** No check on the arguments *)

Lemma orchestrated_cut_ends_at_fault :
  forall t e, orchestrated t e ->
  forall f, e = Cut f -> exists pre c, t = pre ++ [(c, no_return f)].
Proof.
  induction 1 as [| n arg rest e Hn Horch IH | | f0 | n f0 Hn | n arg f0 Hn];
    intros f He; try discriminate He.
  - destruct (IH f He) as (pre & c & ->).
    exists (advance_returned n :: pulled n arg :: pushed arg :: pre), c.
    reflexivity.
  - inversion He; subst. exists [], printf_parser_advance_call. reflexivity.
  - inversion He; subst. exists [advance_returned n], (va_arg_ptr_call n).
    reflexivity.
  - inversion He; subst.
    exists [advance_returned n; pulled n arg], (printf_parser_push_arg_call arg).
    reflexivity.
Qed.

Lemma framed_cut_ends_at_fault :
  forall ctor t e, framed ctor t e ->
  forall f, e = Cut f -> exists pre c, t = pre ++ [(c, no_return f)].
Proof.
  intros ctor t e H f He.
  destruct H as [f0 | loop e Horch Hne | loop f0 Horch | loop Horch].
  - inversion He; subst. exists [], ctor. reflexivity.
  - destruct (orchestrated_cut_ends_at_fault _ _ Horch f He) as (pre & c & ->).
    exists ((ctor, returned_parser) :: pre), c. reflexivity.
  - inversion He; subst.
    exists ((ctor, returned_parser) :: loop), printf_parser_free_call.
    reflexivity.
  - discriminate He.
Qed.

Section ArgumentChecks.
Context {F : Foreign}.

Lemma do_printf_loop_ends_at_its_fault :
  forall fuel parser args w,
    ends_at_its_fault (do_printf_loop fuel parser args w).
Proof.
  intros fuel parser args w f w' Hab.
  pose proof (do_printf_loop_orchestrated fuel parser args w) as Horch.
  rewrite Hab in Horch.
  eapply orchestrated_cut_ends_at_fault; [ exact Horch | reflexivity ].
Qed.

Lemma construct_run_free_ends_at_its_fault :
  forall fuel c construct format args w,
    ends_at_its_fault (construct_run_free fuel c construct format args w).
Proof.
  intros fuel c construct format args w f w' Hab.
  pose proof (construct_run_free_framed fuel c construct format args w) as Hfr.
  rewrite Hab in Hfr.
  eapply framed_cut_ends_at_fault; [ exact Hfr | reflexivity ].
Qed.

Hypothesis unchecked : arguments_are_unchecked.

Lemma do_printf_loop_not_exhausted :
  forall fuel parser args w,
    ~ exhausted (do_printf_loop fuel parser args w).
Proof.
  unfold exhausted.
  induction fuel as [| fuel IH]; intros parser args w [w' Hex];
    [ discriminate Hex | ].
  rewrite do_printf_loop_unfold in Hex.
  destruct (printf_parser_advance parser w) as [[n parser1] w1 | f w1] eqn:Hadv.
  - destruct (n =? 0); [ discriminate Hex | ].
    destruct (va_arg_ptr args n) as [f | [arg args']] eqn:Hpull.
    + destruct (va_arg_ptr_always_yields unchecked args n) as (a & a' & E).
      congruence.
    + destruct (printf_parser_push_arg parser1 arg w1) as [parser2 w2 | f w2]
        eqn:Hpush.
      * apply (IH parser2 args' w2).
        destruct (do_printf_loop fuel parser2 args' w2) as [t o].
        exists w'. exact Hex.
      * cbn in Hex. inversion Hex; subst.
        exact (push_arg_not_exhausted unchecked _ _ _ _ Hpush).
  - cbn in Hex. inversion Hex; subst.
    exact (advance_not_exhausted unchecked _ _ _ Hadv).
Qed.

Lemma construct_run_free_not_exhausted :
  forall fuel c construct format args w,
    (forall v v', construct v <> Fault ArgumentExhausted v') ->
    ~ exhausted (construct_run_free fuel c construct format args w).
Proof.
  intros fuel c construct format args w Hc [w' Hex].
  unfold construct_run_free, bind, call_free, foreign, ret, do_printf in Hex.
  destruct (construct w) as [p w1 | f w1] eqn:Hcons.
  - pose proof (do_printf_loop_not_exhausted fuel p args w1) as Hloop.
    unfold exhausted in Hloop.
    destruct (do_printf_loop fuel p args w1) as [t [p1 w2 | f w2 | w2]];
      cbn in Hex, Hloop.
    + destruct (printf_parser_free p1 w2) as [u w3 | f w3] eqn:Hfree;
        cbn in Hex; [ discriminate Hex | ].
      inversion Hex; subst.
      exact (free_not_exhausted unchecked _ _ _ Hfree).
    + apply Hloop. inversion Hex; subst. exists w'. reflexivity.
    + discriminate Hex.
  - cbn in Hex. inversion Hex; subst. exact (Hc _ _ Hcons).
Qed.

End ArgumentChecks.

Section ArgumentChecksOfTheCalls.
Context {F : Foreign}.


End ArgumentChecksOfTheCalls.

(** Once a run of the loop has ended, a larger iteration budget changes
    nothing. *)
Lemma do_printf_loop_more_fuel :
  forall (F : Foreign) (fuel extra : nat) (parser : PrintfParser)
         (args : va_list) (w : World),
    ending_of (snd (do_printf_loop fuel parser args w)) <> Running ->
    do_printf_loop (fuel + extra) parser args w
    = do_printf_loop fuel parser args w.
Proof.
  intros F fuel extra.
  induction fuel as [| fuel IH]; intros parser args w Hend.
  - cbn in Hend. congruence.
  - replace (S fuel + extra)%nat with (S (fuel + extra)) by reflexivity.
    rewrite !do_printf_loop_unfold in *.
    destruct (printf_parser_advance parser w) as [[n parser1] w1 | f w1];
      [ | reflexivity ].
    destruct (n =? 0); [ reflexivity | ].
    destruct (va_arg_ptr args n) as [f | [arg args']]; [ reflexivity | ].
    destruct (printf_parser_push_arg parser1 arg w1) as [parser2 w2 | f w2];
      [ | reflexivity ].
    rewrite IH; [ reflexivity | ].
    destruct (do_printf_loop fuel parser2 args' w2) as [t o]. exact Hend.
Qed.

(** ** Memory and the output sink *)

Module InterpFacts.
Import Interp.


Lemma len_app : forall a b, len (a ++ b) = len a + len b.
Proof. intros a b. unfold len. rewrite length_app. lia. Qed.

Lemma len_nonneg : forall a, 0 <= len a.
Proof. intros a. unfold len. lia. Qed.

Lemma store_bytes_app :
  forall a b m addr,
    store_bytes m addr (a ++ b) = store_bytes (store_bytes m addr a) (addr + len a) b.
Proof.
  induction a as [| x a IH]; intros b m addr; cbn [store_bytes app].
  - unfold len. cbn. rewrite Z.add_0_r. reflexivity.
  - rewrite IH. f_equal. unfold len. cbn [List.length]. lia.
Qed.

Lemma store_bytes_mem_eq :
  forall bs m m' addr,
    mem_eq m m' -> mem_eq (store_bytes m addr bs) (store_bytes m' addr bs).
Proof.
  induction bs as [| b bs IH]; intros m m' addr H; cbn [store_bytes].
  - exact H.
  - apply IH. intros a. unfold store. destruct (a =? addr); [ reflexivity | apply H ].
Qed.

Lemma store_bytes_outside :
  forall bs m addr a,
    a < addr \/ addr + len bs <= a -> store_bytes m addr bs a = m a.
Proof.
  induction bs as [| b bs IH]; intros m addr a H; cbn [store_bytes].
  - reflexivity.
  - unfold len in H. cbn [List.length] in H.
    rewrite IH by (unfold len; lia).
    unfold store. destruct (Z.eqb_spec a addr); [ lia | reflexivity ].
Qed.

Lemma store_bytes_overwrite :
  forall bs m addr b,
    bs <> [] ->
    mem_eq (store_bytes (store m addr b) addr bs) (store_bytes m addr bs).
Proof.
  intros [| c bs] m addr b H; [ congruence | ].
  cbn [store_bytes]. apply store_bytes_mem_eq.
  intros a. unfold store. destruct (a =? addr); reflexivity.
Qed.

Lemma read_store_bytes :
  forall bs m addr, read_bytes (store_bytes m addr bs) addr (List.length bs) = bs.
Proof.
  induction bs as [| b bs IH]; intros m addr; cbn [store_bytes read_bytes List.length].
  - reflexivity.
  - rewrite IH. f_equal.
    rewrite store_bytes_outside by lia.
    unfold store. rewrite Z.eqb_refl. reflexivity.
Qed.

Lemma read_bytes_mem_eq :
  forall n m m' addr, mem_eq m m' -> read_bytes m addr n = read_bytes m' addr n.
Proof.
  induction n as [| n IH]; intros m m' addr H; cbn [read_bytes].
  - reflexivity.
  - rewrite (H addr), (IH m m' (addr + 1) H). reflexivity.
Qed.

Lemma read_bytes_firstn :
  forall n k m addr, firstn n (read_bytes m addr (n + k)) = read_bytes m addr n.
Proof.
  induction n as [| n IH]; intros k m addr; cbn [read_bytes firstn Nat.add].
  - reflexivity.
  - rewrite IH. reflexivity.
Qed.


Lemma unbounded_write :
  forall c0 out s w bytes,
    unbounded_at c0 out s w ->
    unbounded_at c0 (out ++ bytes) (fst (sink_write s bytes w))
                 (snd (sink_write s bytes w)).
Proof.
  intros c0 out s w bytes [Hk Hc Hl].
  unfold sink_write. rewrite Hk. cbn.
  constructor; cbn.
  - reflexivity.
  - rewrite Hc, app_assoc. reflexivity.
  - rewrite Hl, len_app. reflexivity.
Qed.

Lemma firstn_len :
  forall n (l : list byte), len (firstn n l) = Z.min (Z.of_nat n) (len l).
Proof.
  intros n l. unfold len. rewrite length_firstn. lia.
Qed.

Lemma bounded_write :
  forall m0 c0 e0 buf capacity out s w bytes,
    bounded_at m0 c0 e0 buf capacity out s w ->
    bounded_at m0 c0 e0 buf capacity (out ++ bytes)
               (fst (sink_write s bytes w)) (snd (sink_write s bytes w)).
Proof.
  intros m0 c0 e0 buf capacity out s w bytes [Hk Hw Hl Hm Hc He].
  unfold sink_write. rewrite Hk. cbn [fst snd].
  set (P := firstn (Z.to_nat (capacity - 1)) out) in *.
  set (kept := firstn (Z.to_nat (Z.max 0 (capacity - 1 - written s))) bytes).
  assert (Hfirst : firstn (Z.to_nat (capacity - 1)) (out ++ bytes) = P ++ kept).
  { rewrite firstn_app. fold P. f_equal. unfold kept. f_equal.
    rewrite Hw. unfold P. rewrite firstn_len.
    unfold len. lia. }
  constructor; cbn.
  - reflexivity.
  - rewrite Hfirst, len_app, Hw. reflexivity.
  - rewrite Hl, len_app. reflexivity.
  - unfold bounded_image in *. rewrite Hfirst.
    destruct (0 <? capacity) eqn:Hcap.
    + intros a.
      change (store (store_bytes (memory w) (buf + written s) kept)
                    (buf + (written s + len kept)) NUL a)
        with (store_bytes (store_bytes (memory w) (buf + written s) kept)
                          (buf + (written s + len kept)) [NUL] a).
      replace (buf + (written s + len kept)) with (buf + written s + len kept) by lia.
      rewrite <- store_bytes_app.
      fold P in Hm.
      rewrite (store_bytes_mem_eq (kept ++ [NUL]) _ _ (buf + written s) Hm a).
      rewrite (store_bytes_app P [NUL] m0 buf). cbn [store_bytes].
      rewrite Hw.
      rewrite (store_bytes_overwrite (kept ++ [NUL]) _ _ NUL)
        by (destruct kept; discriminate).
      rewrite <- app_assoc. rewrite (store_bytes_app P (kept ++ [NUL])).
      reflexivity.
    + assert (Hkept : kept = []).
      { unfold kept. rewrite Hw. unfold P. rewrite firstn_len.
        apply Z.ltb_ge in Hcap.
        replace (Z.to_nat (Z.max 0 _)) with 0%nat by (unfold len; lia).
        reflexivity. }
      rewrite Hkept. cbn [store_bytes]. exact Hm.
  - exact Hc.
  - exact He.
Qed.

(** ** Two sinks, one parser

    The format parser decides what to write and what to ask for from its own
    state alone; the sink only receives.  Two parser objects with the same
    core therefore run in lockstep whatever their sinks are, and any relation
    between the two sinks that every write preserves holds when they stop. *)
Section Lockstep.
Variable h : Host.
Variable R : OutputSink -> World -> OutputSink -> World -> Prop.
Hypothesis R_write :
  forall s1 w1 s2 w2 bytes,
    R s1 w1 s2 w2 ->
    R (fst (sink_write s1 bytes w1)) (snd (sink_write s1 bytes w1))
      (fst (sink_write s2 bytes w2)) (snd (sink_write s2 bytes w2)).


Lemma advance_lockstep :
  forall p1 w1 p2 w2,
    related R p1 w1 p2 w2 ->
    match parser_advance h p1 w1, parser_advance h p2 w2 with
    | Ok (n1, q1) v1, Ok (n2, q2) v2 => n1 = n2 /\ related R q1 v1 q2 v2
    | Fault f1 v1, Fault f2 v2 => f1 = f2 /\ sinks_related R v1 v2
    | _, _ => False
    end.
Proof.
  intros p1 w1 p2 w2 [Hcore HR].
  unfold parser_advance. rewrite Hcore.
  destruct (advance h (core p2)) as [out r].
  pose proof (R_write _ _ _ _ out HR) as HR'.
  destruct (sink_write (sink p1) out w1) as [s1 v1].
  destruct (sink_write (sink p2) out w2) as [s2 v2].
  cbn [fst snd] in HR'.
  destruct r as [f | [n c]].
  - split; [ reflexivity | exists s1, s2; exact HR' ].
  - split; [ reflexivity | split; [ reflexivity | exact HR' ] ].
Qed.

Lemma push_arg_lockstep :
  forall p1 w1 p2 w2 arg,
    related R p1 w1 p2 w2 ->
    match parser_push_arg h p1 arg w1, parser_push_arg h p2 arg w2 with
    | Ok q1 v1, Ok q2 v2 => related R q1 v1 q2 v2
    | Fault f1 v1, Fault f2 v2 => f1 = f2 /\ sinks_related R v1 v2
    | _, _ => False
    end.
Proof.
  intros p1 w1 p2 w2 arg [Hcore HR].
  unfold parser_push_arg. rewrite Hcore.
  destruct (push_argument h (core p2) arg) as [out r].
  pose proof (R_write _ _ _ _ out HR) as HR'.
  destruct (sink_write (sink p1) out w1) as [s1 v1].
  destruct (sink_write (sink p2) out w2) as [s2 v2].
  cbn [fst snd] in HR'.
  destruct r as [f | c].
  - split; [ reflexivity | exists s1, s2; exact HR' ].
  - split; [ reflexivity | exact HR' ].
Qed.

Lemma loop_lockstep :
  forall fuel p1 w1 p2 w2 args,
    related R p1 w1 p2 w2 ->
    fst (do_printf_loop (F := interpreter h) fuel p1 args w1)
    = fst (do_printf_loop (F := interpreter h) fuel p2 args w2)
    /\ outcome_related R
         (snd (do_printf_loop (F := interpreter h) fuel p1 args w1))
         (snd (do_printf_loop (F := interpreter h) fuel p2 args w2)).
Proof.
  induction fuel as [| fuel IH]; intros p1 w1 p2 w2 args Hrel.
  - cbn. split; [ reflexivity | ].
    destruct Hrel as [_ HR]. exists (sink p1), (sink p2). exact HR.
  - rewrite !do_printf_loop_unfold.
    cbn [printf_parser_advance printf_parser_push_arg va_arg_ptr interpreter].
    pose proof (advance_lockstep _ _ _ _ Hrel) as Hadv.
    destruct (parser_advance h p1 w1) as [[n1 q1] v1 | f1 v1];
      destruct (parser_advance h p2 w2) as [[n2 q2] v2 | f2 v2];
      try contradiction.
    + destruct Hadv as [<- Hrel1].
      destruct (n1 =? 0); [ split; [ reflexivity | exact Hrel1 ] | ].
      destruct (pull args n1) as [f | [arg args']].
      * split; [ reflexivity | ].
        split; [ reflexivity | ].
        destruct Hrel1 as [_ HR]. exists (sink q1), (sink q2). exact HR.
      * pose proof (push_arg_lockstep _ _ _ _ arg Hrel1) as Hpush.
        destruct (parser_push_arg h q1 arg v1) as [r1 u1 | g1 u1];
          destruct (parser_push_arg h q2 arg v2) as [r2 u2 | g2 u2];
          try contradiction.
        -- destruct (IH r1 u1 r2 u2 args' Hpush) as [Ht Ho].
           destruct (do_printf_loop (F := interpreter h) fuel r1 args' u1)
             as [t1 o1].
           destruct (do_printf_loop (F := interpreter h) fuel r2 args' u2)
             as [t2 o2].
           cbn [fst snd] in *. subst t2. split; [ reflexivity | exact Ho ].
        -- destruct Hpush as [<- Hs]. split; [ reflexivity | ].
           split; [ reflexivity | exact Hs ].
    + destruct Hadv as [<- Hs]. split; [ reflexivity | ].
      split; [ reflexivity | exact Hs ].
Qed.

End Lockstep.

(** ** The bounded call against the unbounded one *)


Lemma sinks_agree_write :
  forall m0 c0 e0 buf capacity c1 s1 w1 s2 w2 bytes,
    sinks_agree m0 c0 e0 buf capacity c1 s1 w1 s2 w2 ->
    sinks_agree m0 c0 e0 buf capacity c1
      (fst (sink_write s1 bytes w1)) (snd (sink_write s1 bytes w1))
      (fst (sink_write s2 bytes w2)) (snd (sink_write s2 bytes w2)).
Proof.
  intros m0 c0 e0 buf capacity c1 s1 w1 s2 w2 bytes (out & Hu & Hb).
  exists (out ++ bytes). split.
  - apply unbounded_write; assumption.
  - apply bounded_write; assumption.
Qed.

Lemma unbounded_start :
  forall w, unbounded_at (console w) [] unbounded_sink w.
Proof.
  intros w. constructor; cbn.
  - reflexivity.
  - rewrite app_nil_r. reflexivity.
  - reflexivity.
Qed.

Lemma bounded_start :
  forall buf capacity w,
    bounded_at (memory w) (console w) (errno w) buf capacity []
               (fst (sink_write (bounded_sink buf capacity) [] w))
               (snd (sink_write (bounded_sink buf capacity) [] w)).
Proof.
  intros buf capacity w.
  unfold sink_write, bounded_sink. cbn [kind written logical_length truncated fst snd].
  rewrite firstn_nil.
  constructor; cbn; try reflexivity.
  - rewrite firstn_nil. reflexivity.
  - unfold bounded_image. rewrite firstn_nil. cbn.
    destruct (0 <? capacity); [ | intros a; reflexivity ].
    intros a. unfold store. repeat rewrite Z.add_0_r. reflexivity.
Qed.

(** The simulation, from the two constructors to the two results: when the
    console call returns having written [out], the buffer call on the same
    format and arguments returns too, makes the same calls after the
    constructor, and leaves the image of [out] in memory. *)
Lemma bounded_run_from_unbounded_run :
  forall h fuel stream buf size fmt args w1 w tu r wu out,
    vfprintf (F := interpreter h) fuel stream fmt args w1 = (tu, Returned r wu) ->
    console wu = console w1 ++ out ->
    exists tb wb,
      vsnprintf (F := interpreter h) fuel buf size fmt args w
      = (tb, Returned None wb)
      /\ mem_eq (memory wb) (bounded_image (memory w) buf (to_uint32 size) out)
      /\ console wb = console w
      /\ errno wb = errno w.
Proof.
  intros h fuel stream buf size fmt args w1 w tu r wu out Hrun Hout.
  unfold vfprintf, vsnprintf, do_printf in *.
  unfold bind at 1 in Hrun. unfold bind at 1.
  unfold call_new, call_new_with_buf, foreign in *.
  cbn [printf_parser_new printf_parser_new_with_buf interpreter] in *.
  unfold parser_new in Hrun. unfold parser_new_with_buf.
  pose proof (bounded_start buf (to_uint32 size) w) as Hb0.
  destruct (sink_write (bounded_sink buf (to_uint32 size)) [] w) as [s0 wb0].
  cbn [fst snd] in Hb0.
  set (R := sinks_agree (memory w) (console w) (errno w) buf (to_uint32 size)
                        (console w1)).
  assert (Hrel : related R (mkObject (new_parser (bytes_of fmt)) unbounded_sink) w1
                           (mkObject (new_parser (bytes_of fmt)) s0) wb0).
  { split; [ reflexivity | ].
    exists []. split; [ apply unbounded_start | exact Hb0 ]. }
  destruct (loop_lockstep h R (sinks_agree_write _ _ _ _ _ _) fuel _ _ _ _ args Hrel)
    as [Ht Ho].
  unfold bind at 1 in Hrun. unfold bind at 1.
  destruct (do_printf_loop (F := interpreter h) fuel
              (mkObject (new_parser (bytes_of fmt)) unbounded_sink) args w1)
    as [t1 o1].
  destruct (do_printf_loop (F := interpreter h) fuel
              (mkObject (new_parser (bytes_of fmt)) s0) args wb0)
    as [t2 o2].
  cbn [fst snd] in Ht, Ho. subst t2.
  destruct o1 as [p1 v1 | f1 v1 | v1]; destruct o2 as [p2 v2 | f2 v2 | v2];
    cbn in Ho; try contradiction; cbn in Hrun; try discriminate Hrun.
  inversion Hrun; subst; clear Hrun.
  destruct Ho as [_ (out' & Hu & Hb)].
  assert (out' = out).
  { destruct Hu as [_ Hc _]. rewrite Hc in Hout.
    apply app_inv_head in Hout. exact Hout. }
  subst out'.
  destruct Hb as [_ _ _ Hm Hc He].
  cbn. eexists _, v2. repeat split; assumption.
Qed.

(** How the image of [out] reads: the content, the terminator, the frame. *)
Lemma bounded_image_reads :
  forall m m0 buf capacity out,
    0 < capacity ->
    mem_eq m (bounded_image m0 buf capacity out) ->
    let k := Z.min (len out) (capacity - 1) in
    read_bytes m buf (Z.to_nat k) = firstn (Z.to_nat k) out
    /\ m (buf + k) = NUL
    /\ forall a, a < buf \/ buf + k < a -> m a = m0 a.
Proof.
  intros m m0 buf capacity out Hcap Hm k.
  unfold bounded_image in Hm.
  destruct (Z.ltb_spec 0 capacity) as [_ | Hbad]; [ | lia ].
  set (P := firstn (Z.to_nat (capacity - 1)) out) in *.
  assert (HlenP : len P = k).
  { unfold P. rewrite firstn_len. unfold k. lia. }
  assert (HP : P = firstn (Z.to_nat k) out).
  { unfold P, k. destruct (Z.le_ge_cases (len out) (capacity - 1)) as [Hle | Hge].
    - rewrite Z.min_l by assumption.
      rewrite !firstn_all2; [ reflexivity | unfold len; lia | unfold len in *; lia ].
    - rewrite Z.min_r by lia. reflexivity. }
  assert (HnP : List.length P = Z.to_nat k) by (unfold len in HlenP; lia).
  repeat split.
  - rewrite (read_bytes_mem_eq _ _ _ buf Hm).
    rewrite <- HP, <- HnP.
    rewrite <- (read_bytes_firstn (List.length P) 1).
    replace (List.length P + 1)%nat with (List.length (P ++ [NUL]))
      by (rewrite length_app; reflexivity).
    rewrite read_store_bytes.
    rewrite firstn_app, firstn_all, Nat.sub_diag. cbn. apply app_nil_r.
  - rewrite Hm, store_bytes_app. cbn [store_bytes].
    unfold store. rewrite HlenP, Z.eqb_refl. reflexivity.
  - intros a Ha. rewrite Hm.
    apply store_bytes_outside.
    rewrite len_app, HlenP. unfold len. cbn. lia.
Qed.

(** C2 (as amended): for a bounded call with buffer size [size] (a 32-bit
    value) whose unbounded counterpart returns having written [out], of
    length [L]: the bounded call returns too; the buffer holds the first
    [min L (size - 1)] bytes of [out] followed by one terminator byte when
    [size > 0]; no other byte of memory changes, and none at all when [size]
    is 0; the console and [errno] are untouched.  The call hands back no
    value: [snprintf] and [vsnprintf] end without a [return] statement, so
    [L] is not reported. *)
Theorem bounded_call_writes_prefix_and_terminator :
  forall (h : Host) (fuel : nat) (stream buf size : Z) (fmt : string)
         (args : ArgumentCursor) (w : World) (tu : trace) (wu : World)
         (out : list byte),
    0 <= size < 2 ^ 32 ->
    vfprintf (F := interpreter h) fuel stream fmt args w = (tu, Returned None wu) ->
    console wu = console w ++ out ->
    let k := Z.min (len out) (size - 1) in
    exists tb wb,
      vsnprintf (F := interpreter h) fuel buf size fmt args w
      = (tb, Returned None wb)
      /\ snprintf (F := interpreter h) fuel buf size fmt args w
         = (tb, Returned None wb)
      /\ (size = 0 -> forall a, memory wb a = memory w a)
      /\ (0 < size ->
          read_bytes (memory wb) buf (Z.to_nat k) = firstn (Z.to_nat k) out
          /\ memory wb (buf + k) = NUL
          /\ forall a, a < buf \/ buf + k < a -> memory wb a = memory w a)
      /\ console wb = console w
      /\ errno wb = errno w.
Proof.
  intros h fuel stream buf size fmt args w tu wu out Hsize Hrun Hout k.
  destruct (bounded_run_from_unbounded_run h fuel stream buf size fmt args
              w w tu None wu out Hrun Hout)
    as (tb & wb & Hb & Hm & Hc & He).
  unfold to_uint32 in Hm. rewrite Z.mod_small in Hm by exact Hsize.
  exists tb, wb.
  split; [ exact Hb | ].
  split; [ unfold snprintf, bind; rewrite Hb; cbn; rewrite app_nil_r; reflexivity | ].
  split; [ intros -> a; rewrite Hm; reflexivity | ].
  split; [ intros Hpos; exact (bounded_image_reads _ _ _ _ _ Hpos Hm) | ].
  split; assumption.
Qed.

(** A run of the amended C2: an 8-byte buffer at address 100 and 13 bytes of
    would-be output. *)
Lemma bounded_call_witness :
  let out := bytes_of "hello world 3" in
  let k := Z.min (len out) (8 - 1) in
  exists tb wb,
    vsnprintf (F := interpreter ilp32) (enough "hello world %d") 100 8
              "hello world %d" (int_arg ilp32 3) blank
    = (tb, Returned None wb)
    /\ snprintf (F := interpreter ilp32) (enough "hello world %d") 100 8
                "hello world %d" (int_arg ilp32 3) blank
       = (tb, Returned None wb)
    /\ (8 = 0 -> forall a, memory wb a = memory blank a)
    /\ (0 < 8 ->
        read_bytes (memory wb) 100 (Z.to_nat k) = firstn (Z.to_nat k) out
        /\ memory wb (100 + k) = NUL
        /\ forall a, a < 100 \/ 100 + k < a -> memory wb a = memory blank a)
    /\ console wb = console blank
    /\ errno wb = errno blank.
Proof.
  refine (bounded_call_writes_prefix_and_terminator
            ilp32 (enough "hello world %d") 1 100 8 "hello world %d"
            (int_arg ilp32 3) blank _ _ (bytes_of "hello world 3") _ _ _).
  - lia.
  - vm_compute. reflexivity.
  - reflexivity.
Defined.

(** C2 as stated fails on the returned value: the 8-byte call on
    "hello world %d" and 3 has a would-be length of 13 and returns without a
    value. *)
Lemma bounded_call_returns_no_length :
  (exists tu wu,
      vfprintf (F := interpreter ilp32) (enough "hello world %d") 1
               "hello world %d" (int_arg ilp32 3) blank
      = (tu, Returned None wu)
      /\ len (console wu) = 13)
  /\ (exists tb wb returned,
        snprintf (F := interpreter ilp32) (enough "hello world %d") 100 8
                 "hello world %d" (int_arg ilp32 3) blank
        = (tb, Returned returned wb)
        /\ returned <> Some 13)
  /\ (exists tb wb returned,
        vsnprintf (F := interpreter ilp32) (enough "hello world %d") 100 8
                  "hello world %d" (int_arg ilp32 3) blank
        = (tb, Returned returned wb)
        /\ returned <> Some 13).
Proof.
  split; [ | split ].
  - eexists _, _. split; vm_compute; reflexivity.
  - eexists _, _, None. split; [ vm_compute; reflexivity | discriminate ].
  - eexists _, _, None. split; [ vm_compute; reflexivity | discriminate ].
Qed.

(** C3 (as amended): on a target with 4-byte [int], the call
    [snprintf(name, 32, "key_multi_msgplayer%i", 3)] returns; the buffer then
    starts with the 20 bytes "key_multi_msgplayer3" and one terminator byte;
    the 11 bytes after them and all other memory are as before; the call hands
    back no value, so the length 20 is not reported. *)
Theorem snprintf_key_multi_msgplayer :
  forall (h : Host) (name : Z) (w : World),
    int_bytes h = 4%positive ->
    exists t w',
      snprintf (F := interpreter h) (enough "key_multi_msgplayer%i") name 32
               "key_multi_msgplayer%i" (int_arg h 3) w
      = (t, Returned None w')
      /\ read_bytes (memory w') name 21 = bytes_of "key_multi_msgplayer3" ++ [NUL]
      /\ (forall a, a < name \/ name + 20 < a -> memory w' a = memory w a)
      /\ console w' = console w
      /\ errno w' = errno w.
Proof.
  intros h name w Hint.
  destruct h as [ib lb llb sb pb db ro]. cbn in Hint. subst ib.
  set (h := mkHost 4 lb llb sb pb db ro).
  assert (Hrun : exists tu wu,
             vfprintf (F := interpreter h) (enough "key_multi_msgplayer%i") 1
                      "key_multi_msgplayer%i" (int_arg h 3) blank
             = (tu, Returned None wu)
             /\ console wu = console blank ++ bytes_of "key_multi_msgplayer3").
  { eexists _, _. split; vm_compute; reflexivity. }
  destruct Hrun as (tu & wu & Hrun & Hout).
  destruct (bounded_run_from_unbounded_run h _ 1 name 32 _ _ blank w tu None wu _
              Hrun Hout)
    as (tb & wb & Hb & Hm & Hc & He).
  exists tb, wb.
  split; [ unfold snprintf, bind; rewrite Hb; cbn; rewrite app_nil_r; reflexivity | ].
  change (to_uint32 32) with 32 in Hm.
  change (bounded_image (memory w) name 32 (bytes_of "key_multi_msgplayer3"))
    with (store_bytes (memory w) name (bytes_of "key_multi_msgplayer3" ++ [NUL]))
    in Hm.
  split; [ | split; [ | split; assumption ] ].
  - rewrite (read_bytes_mem_eq _ _ _ name Hm).
    apply (read_store_bytes (bytes_of "key_multi_msgplayer3" ++ [NUL])).
  - intros a Ha. rewrite Hm. apply store_bytes_outside.
    change (len (bytes_of "key_multi_msgplayer3" ++ [NUL])) with 21. lia.
Qed.

(** The amended C3 on the 32-bit target, with the buffer at address 4096. *)
Lemma snprintf_key_multi_msgplayer_witness :
  exists t w',
    snprintf (F := interpreter ilp32) (enough "key_multi_msgplayer%i") 4096 32
             "key_multi_msgplayer%i" (int_arg ilp32 3) dotted
    = (t, Returned None w')
    /\ read_bytes (memory w') 4096 21 = bytes_of "key_multi_msgplayer3" ++ [NUL]
    /\ (forall a, a < 4096 \/ 4096 + 20 < a -> memory w' a = memory dotted a)
    /\ console w' = console dotted
    /\ errno w' = errno dotted.
Proof.
  apply (snprintf_key_multi_msgplayer ilp32 4096 dotted).
  reflexivity.
Defined.

(** C3 as stated fails on the returned value: the call of [test_printf], on
    the dotted 32-byte buffer, writes the 20 bytes and the terminator, leaves
    the 11 dots after them, and returns without a value, so not 20. *)
Lemma snprintf_key_multi_msgplayer_returns_no_length :
  exists t w' returned,
    snprintf (F := interpreter ilp32) (enough "key_multi_msgplayer%i") 4096 32
             "key_multi_msgplayer%i" (int_arg ilp32 3) dotted
    = (t, Returned returned w')
    /\ read_bytes (memory w') 4096 32
       = bytes_of "key_multi_msgplayer3" ++ [NUL] ++ bytes_of "..........."
    /\ returned <> Some 20.
Proof.
  eexists _, _, None.
  split; [ vm_compute; reflexivity | ].
  split; [ vm_compute; reflexivity | discriminate ].
Qed.

(** ** Termination of the loop on the modelled parser

    The measure: the format bytes not yet scanned, plus the from-argument
    requests still queued, plus one for a directive that still waits for its
    own argument.  [advance] never raises it; [push_argument] lowers it by
    one. *)

Lemma directive_step_stars :
  forall ph d c ph' d',
    directive_step ph d c = Continue ph' d' -> (stars d' <= stars d + 1)%nat.
Proof.
  intros ph d c ph' d' H.
  unfold directive_step, flag_step, digit_step, before_length in H.
  destruct d as [f wd pr l].
  destruct (classify c); destruct ph; cbn in H; try discriminate H;
    inversion H; subst; clear H;
    unfold stars, width_digit, precision_digit, with_flags, with_width,
      with_precision, with_length;
    cbn; destruct wd, pr; cbn; lia.
Qed.

Lemma finish_directive_requests :
  forall h d k dir,
    finish_directive h d k = inr dir ->
    List.length (requests_of dir) = stars d.
Proof.
  intros h d k dir H.
  unfold finish_directive in H.
  destruct d as [f wd pr l].
  destruct k, l; cbn in H; try discriminate H; inversion H; subst; clear H;
    unfold requests_of, stars; cbn; destruct wd, pr; reflexivity.
Qed.

(** A directive that needs an argument takes at least one format byte more
    than it has [*] markers. *)
Lemma scan_consumes :
  forall h input st out dir rest,
    scan h st input = (out, AtDirective dir rest) ->
    (List.length rest + 1 + List.length (requests_of dir)
     <= List.length input + state_stars st)%nat.
Proof.
  intros h. induction input as [| c input IH]; intros st out dir rest H.
  - cbn in H. destruct st; discriminate H.
  - cbn [scan] in H. destruct st as [| ph d].
    + destruct (Ascii.eqb c "%"%char).
      * apply IH in H. cbn in *. lia.
      * unfold emit in H. inversion H as [[Hout Hsnd]].
        destruct (scan h InLiteral input) as [o r] eqn:Hs.
        cbn in Hsnd. subst r. apply IH in Hs. cbn in *. lia.
    + destruct (directive_step ph d c) as [ph' d' | k | f] eqn:Hstep.
      * apply IH in H. apply directive_step_stars in Hstep. cbn in *. lia.
      * assert (Hfin : forall k',
                   match finish_directive h d k' with
                   | inr dir0 => ([], AtDirective dir0 input)
                   | inl f => ([], Failed f)
                   end = (out, AtDirective dir rest) ->
                   (List.length rest + 1 + List.length (requests_of dir)
                    <= List.length (c :: input) + stars d)%nat).
        { intros k' Hk.
          destruct (finish_directive h d k') as [f | dir0] eqn:Hf;
            [ discriminate Hk | ].
          inversion Hk; subst.
          rewrite (finish_directive_requests _ _ _ _ Hf). cbn. lia. }
        destruct k; try (apply Hfin in H; exact H).
        unfold emit in H. inversion H as [[Hout Hsnd]].
        destruct (scan h InLiteral input) as [o r] eqn:Hs.
        cbn in Hsnd. subst r. apply IH in Hs. cbn in *. lia.
      * discriminate H.
Qed.

Lemma advance_potential :
  forall h p out n p',
    advance h p = (out, inr (n, p')) -> (potential p' <= potential p)%nat.
Proof.
  intros h p out n p' H.
  unfold advance in H.
  destruct p as [fmt cur md pend q]. cbn [mode side_channel_queue
    pending_directive format cursor] in H.
  destruct md; [ | discriminate H ].
  destruct q as [| r q].
  - destruct pend as [d |].
    + inversion H; subst. unfold potential. cbn. lia.
    + destruct (scan h InLiteral (skipn cur fmt)) as [o sc] eqn:Hs.
      destruct sc as [| d rest | f].
      * inversion H; subst. unfold potential. cbn. lia.
      * apply scan_consumes in Hs. rewrite length_skipn in Hs. cbn in Hs.
        destruct (requests_of d) as [| r q] eqn:Hq;
          inversion H; subst; unfold potential; cbn in *; lia.
      * discriminate H.
  - inversion H; subst. lia.
Qed.

Lemma push_argument_potential :
  forall h p bytes out p',
    push_argument h p bytes = (out, inr p') -> S (potential p') = potential p.
Proof.
  intros h p bytes out p' H.
  unfold push_argument in H.
  destruct p as [fmt cur md pend q]. cbn [mode side_channel_queue
    pending_directive format cursor] in H.
  destruct q as [| r q]; destruct pend as [d |]; try discriminate H.
  - destruct md; try discriminate H.
    destruct (render h d bytes); [ | discriminate H ].
    inversion H; subst. unfold potential. cbn. lia.
  - inversion H; subst. unfold potential. cbn. lia.
Qed.

Lemma parser_advance_potential :
  forall h p w n p' w',
    parser_advance h p w = Ok (n, p') w' ->
    (potential (core p') <= potential (core p))%nat.
Proof.
  intros h p w n p' w' H. unfold parser_advance in H.
  destruct (advance h (core p)) as [out r] eqn:Ha.
  destruct (sink_write (sink p) out w) as [s v].
  destruct r as [f | [m c]]; [ discriminate H | ].
  inversion H; subst. cbn. eapply advance_potential; eassumption.
Qed.

Lemma parser_push_arg_potential :
  forall h p arg w p' w',
    parser_push_arg h p arg w = Ok p' w' ->
    S (potential (core p')) = potential (core p).
Proof.
  intros h p arg w p' w' H. unfold parser_push_arg in H.
  destruct (push_argument h (core p) arg) as [out r] eqn:Ha.
  destruct (sink_write (sink p) out w) as [s v].
  destruct r as [f | c]; [ discriminate H | ].
  inversion H; subst. cbn. eapply push_argument_potential; eassumption.
Qed.

(** With a budget above the measure the loop ends, having entered its body at
    most once more than the measure and completed it at most as often as the
    measure. *)
Lemma loop_terminates :
  forall h fuel p args w,
    (potential (core p) < fuel)%nat ->
    ending_of (snd (do_printf_loop (F := interpreter h) fuel p args w)) <> Running
    /\ (iterations (fst (do_printf_loop (F := interpreter h) fuel p args w))
        <= S (potential (core p)))%nat
    /\ (completed_iterations (fst (do_printf_loop (F := interpreter h) fuel p args w))
        <= potential (core p))%nat.
Proof.
  intros h. induction fuel as [| fuel IH]; intros p args w Hfuel; [ lia | ].
  rewrite do_printf_loop_unfold.
  cbn [printf_parser_advance printf_parser_push_arg va_arg_ptr interpreter].
  destruct (parser_advance h p w) as [[n p1] w1 | f w1] eqn:Hadv;
    [ | cbn; repeat split; try discriminate; lia ].
  apply parser_advance_potential in Hadv.
  destruct (n =? 0); [ cbn; repeat split; try discriminate; lia | ].
  destruct (pull args n) as [f | [arg args']];
    [ cbn; repeat split; try discriminate; lia | ].
  destruct (parser_push_arg h p1 arg w1) as [p2 w2 | f w2] eqn:Hpush;
    [ | cbn; repeat split; try discriminate; lia ].
  apply parser_push_arg_potential in Hpush.
  destruct (IH p2 args' w2 ltac:(lia)) as (Hend & Hit & Hdone).
  destruct (do_printf_loop (F := interpreter h) fuel p2 args' w2) as [t o].
  unfold iterations, completed_iterations in *. cbn in *.
  repeat split; [ exact Hend | lia | lia ].
Qed.

(** Scanned from literal text, a directive that needs an argument takes at
    least two format bytes more than it has [*] markers: its [%] and its
    conversion character. *)
Lemma scan_consumes_literal :
  forall h input out dir rest,
    scan h InLiteral input = (out, AtDirective dir rest) ->
    (List.length rest + 2 + List.length (requests_of dir)
     <= List.length input)%nat.
Proof.
  intros h. induction input as [| c input IH]; intros out dir rest H.
  - discriminate H.
  - cbn [scan] in H.
    destruct (Ascii.eqb c "%"%char).
    + apply scan_consumes in H. cbn in *. lia.
    + unfold emit in H. inversion H as [[Hout Hsnd]].
      assert (Hs : scan h InLiteral input
                   = (fst (scan h InLiteral input), AtDirective dir rest))
        by (rewrite <- Hsnd; apply surjective_pairing).
      apply IH in Hs. cbn in *. lia.
Qed.

Lemma pass_bound_positive :
  forall p, (1 <= pass_bound p)%nat.
Proof.
  intros p. unfold pass_bound.
  destruct (pending_directive p); [ lia | ].
  destruct (side_channel_queue p); lia.
Qed.

(** One complete pass, [advance] then [push_argument], lowers the bound. *)
Lemma advance_push_bound :
  forall h p out n p1 bytes out' p2,
    advance h p = (out, inr (n, p1)) ->
    push_argument h p1 bytes = (out', inr p2) ->
    (S (pass_bound p2) <= pass_bound p)%nat.
Proof.
  intros h p out n p1 bytes out' p2 Ha Hp.
  unfold advance in Ha.
  destruct p as [fmt cur md pend q]. cbn [mode side_channel_queue
    pending_directive format cursor] in Ha.
  destruct md; [ | discriminate Ha ].
  destruct q as [| r q].
  - destruct pend as [d |].
    + inversion Ha; subst; clear Ha.
      unfold push_argument in Hp. cbn in Hp.
      destruct (render h d bytes); [ | discriminate Hp ].
      inversion Hp; subst. unfold pass_bound, potential. cbn -[Nat.max Nat.sub]. lia.
    + destruct (scan h InLiteral (skipn cur fmt)) as [o sc] eqn:Hs.
      destruct sc as [| d rest | f].
      * inversion Ha; subst; clear Ha. discriminate Hp.
      * apply scan_consumes_literal in Hs. rewrite length_skipn in Hs.
        destruct (requests_of d) as [| r q] eqn:Hq;
          inversion Ha; subst; clear Ha;
          unfold push_argument in Hp; cbn in Hp.
        -- destruct (render h d bytes); [ | discriminate Hp ].
           inversion Hp; subst. unfold pass_bound, potential. cbn -[Nat.max Nat.sub] in *. lia.
        -- inversion Hp; subst. unfold pass_bound, potential. cbn -[Nat.max Nat.sub] in *. lia.
      * discriminate Ha.
  - inversion Ha; subst; clear Ha.
    unfold push_argument in Hp. cbn in Hp.
    destruct pend as [d |]; [ | discriminate Hp ].
    inversion Hp; subst. unfold pass_bound, potential. cbn -[Nat.max Nat.sub]. lia.
Qed.

Lemma parser_pass_bound :
  forall h p w n p1 w1 arg p2 w2,
    parser_advance h p w = Ok (n, p1) w1 ->
    parser_push_arg h p1 arg w1 = Ok p2 w2 ->
    (S (pass_bound (core p2)) <= pass_bound (core p))%nat.
Proof.
  intros h p w n p1 w1 arg p2 w2 Ha Hp.
  unfold parser_advance in Ha.
  destruct (advance h (core p)) as [out r] eqn:Hadv.
  destruct (sink_write (sink p) out w) as [s v].
  destruct r as [f | [m c]]; [ discriminate Ha | ].
  inversion Ha; subst; clear Ha.
  unfold parser_push_arg in Hp. cbn [core sink] in Hp.
  destruct (push_argument h c arg) as [out' r'] eqn:Hpush.
  destruct (sink_write s out' w1) as [s' v'].
  destruct r' as [f | c']; [ discriminate Hp | ].
  inversion Hp; subst; clear Hp. cbn [core].
  eapply advance_push_bound; eassumption.
Qed.

(** The body of the loop is entered at most [pass_bound] times and run to
    its end fewer times than that; with that much budget the loop ends. *)
Lemma loop_within_pass_bound :
  forall h fuel p args w,
    (iterations (fst (do_printf_loop (F := interpreter h) fuel p args w))
     <= pass_bound (core p))%nat
    /\ (completed_iterations
          (fst (do_printf_loop (F := interpreter h) fuel p args w))
        < pass_bound (core p))%nat
    /\ ((pass_bound (core p) <= fuel)%nat ->
        ending_of (snd (do_printf_loop (F := interpreter h) fuel p args w))
        <> Running).
Proof.
  intros h. induction fuel as [| fuel IH]; intros p args w;
    pose proof (pass_bound_positive (core p)) as Hpos.
  - cbn. split; [ lia | split; [ lia | intros; lia ] ].
  - rewrite do_printf_loop_unfold.
    cbn [printf_parser_advance printf_parser_push_arg va_arg_ptr interpreter].
    destruct (parser_advance h p w) as [[n p1] w1 | f w1] eqn:Hadv;
      [ | cbn; split; [ lia | split; [ lia | intros _; discriminate ] ] ].
    destruct (n =? 0);
      [ cbn; split; [ lia | split; [ lia | intros _; discriminate ] ] | ].
    destruct (pull args n) as [f | [arg args']];
      [ cbn; split; [ lia | split; [ lia | intros _; discriminate ] ] | ].
    destruct (parser_push_arg h p1 arg w1) as [p2 w2 | f w2] eqn:Hpush;
      [ | cbn; split; [ lia | split; [ lia | intros _; discriminate ] ] ].
    pose proof (parser_pass_bound _ _ _ _ _ _ _ _ _ Hadv Hpush) as Hdown.
    destruct (IH p2 args' w2) as (Hit & Hdone & Hend).
    destruct (do_printf_loop (F := interpreter h) fuel p2 args' w2) as [t o].
    unfold iterations, completed_iterations in *. cbn in *.
    split; [ lia | split; [ lia | intros Hfuel; apply Hend; lia ] ].
Qed.

(** The two entry points on the modelled parser, in terms of the loop: the
    constructors and [printf_parser_free] always return. *)
Lemma vfprintf_on_interpreter :
  forall h fuel stream fmt args w,
    vfprintf (F := interpreter h) fuel stream fmt args w
    = let r := do_printf_loop (F := interpreter h) fuel
                 (mkObject (new_parser (bytes_of fmt)) unbounded_sink) args w in
      match snd r with
      | Returned _ w' =>
          ((printf_parser_new_call fmt, returned_parser)
           :: fst r ++ [(printf_parser_free_call, returned_void)],
           Returned None w')
      | Aborted f w' =>
          ((printf_parser_new_call fmt, returned_parser) :: fst r, Aborted f w')
      | Unfinished w' =>
          ((printf_parser_new_call fmt, returned_parser) :: fst r, Unfinished w')
      end.
Proof.
  intros h fuel stream fmt args w.
  unfold vfprintf, do_printf, bind, call_new, call_free, foreign.
  cbn [printf_parser_new printf_parser_free interpreter parser_new parser_free].
  destruct (do_printf_loop (F := interpreter h) fuel
              (mkObject (new_parser (bytes_of fmt)) unbounded_sink) args w)
    as [t [p' w' | f w' | w']]; reflexivity.
Qed.

Lemma vsnprintf_on_interpreter :
  forall h fuel buf size fmt args w,
    vsnprintf (F := interpreter h) fuel buf size fmt args w
    = let start := sink_write (bounded_sink buf (to_uint32 size)) [] w in
      let r := do_printf_loop (F := interpreter h) fuel
                 (mkObject (new_parser (bytes_of fmt)) (fst start)) args
                 (snd start) in
      match snd r with
      | Returned _ w' =>
          ((printf_parser_new_with_buf_call fmt buf (to_uint32 size), returned_parser)
           :: fst r ++ [(printf_parser_free_call, returned_void)],
           Returned None w')
      | Aborted f w' =>
          ((printf_parser_new_with_buf_call fmt buf (to_uint32 size), returned_parser)
           :: fst r, Aborted f w')
      | Unfinished w' =>
          ((printf_parser_new_with_buf_call fmt buf (to_uint32 size), returned_parser)
           :: fst r, Unfinished w')
      end.
Proof.
  intros h fuel buf size fmt args w.
  unfold vsnprintf, do_printf, bind, call_new_with_buf, call_free, foreign.
  cbn [printf_parser_new_with_buf printf_parser_free interpreter].
  unfold parser_new_with_buf, parser_free.
  destruct (sink_write (bounded_sink buf (to_uint32 size)) [] w) as [s0 w0].
  cbn [fst snd].
  destruct (do_printf_loop (F := interpreter h) fuel
              (mkObject (new_parser (bytes_of fmt)) s0) args w0)
    as [t [p' w' | f w' | w']]; reflexivity.
Qed.

Lemma bytes_of_length :
  forall fmt, List.length (bytes_of fmt) = String.length fmt.
Proof.
  induction fmt as [| c fmt IH]; cbn; [ reflexivity | ].
  unfold bytes_of in IH. rewrite IH. reflexivity.
Qed.

Lemma filter_snoc_false :
  forall (f : event -> bool) (t : trace) (e : event),
    f e = false -> filter f (t ++ [e]) = filter f t.
Proof.
  intros f t e He. rewrite filter_app. cbn. rewrite He. apply app_nil_r.
Qed.

(** C4 (as amended): on the modelled parser, for every format and argument
    list, the loop behind [vfprintf] and [vsnprintf] ends (by returning or by
    a fault) within a budget of as many passes as the format has bytes, one
    pass for the empty format.  Its body is entered at most as many times as
    the format has bytes, and once for the empty format (the pass in which
    [advance] returns 0 counts); it is run to its end fewer times than that.
    The call never enters a formatting routine again: its foreign calls are
    one constructor call, then the passes of that one loop, one after the
    other, then [printf_parser_free]. *)
Theorem formatting_loop_terminates :
  forall (h : Host) (fuel : nat) (stream buf size : Z) (fmt : string)
         (args : ArgumentCursor) (w : World),
    (Nat.max 1 (String.length fmt) <= fuel)%nat ->
    (ending_of (snd (vfprintf (F := interpreter h) fuel stream fmt args w))
     <> Running
     /\ (iterations (fst (vfprintf (F := interpreter h) fuel stream fmt args w))
         <= Nat.max 1 (String.length fmt))%nat
     /\ (completed_iterations
           (fst (vfprintf (F := interpreter h) fuel stream fmt args w))
         < Nat.max 1 (String.length fmt))%nat
     /\ framed (printf_parser_new_call fmt)
               (fst (vfprintf (F := interpreter h) fuel stream fmt args w))
               (ending_of
                  (snd (vfprintf (F := interpreter h) fuel stream fmt args w))))
    /\ (ending_of (snd (vsnprintf (F := interpreter h) fuel buf size fmt args w))
        <> Running
        /\ (iterations (fst (vsnprintf (F := interpreter h) fuel buf size fmt args w))
            <= Nat.max 1 (String.length fmt))%nat
        /\ (completed_iterations
              (fst (vsnprintf (F := interpreter h) fuel buf size fmt args w))
            < Nat.max 1 (String.length fmt))%nat
        /\ framed (printf_parser_new_with_buf_call fmt buf (to_uint32 size))
                  (fst (vsnprintf (F := interpreter h) fuel buf size fmt args w))
                  (ending_of
                     (snd (vsnprintf (F := interpreter h) fuel buf size fmt
                             args w)))).
Proof.
  intros h fuel stream buf size fmt args w Hfuel.
  assert (Hloop : forall s v,
             let r := do_printf_loop (F := interpreter h) fuel
                        (mkObject (new_parser (bytes_of fmt)) s) args v in
             ending_of (snd r) <> Running
             /\ (iterations (fst r) <= Nat.max 1 (String.length fmt))%nat
             /\ (completed_iterations (fst r)
                 < Nat.max 1 (String.length fmt))%nat).
  { intros s v.
    pose proof (loop_within_pass_bound h fuel
                  (mkObject (new_parser (bytes_of fmt)) s) args v) as H.
    unfold pass_bound in H. cbn -[Nat.max Nat.sub] in H.
    rewrite bytes_of_length, Nat.sub_0_r in H.
    destruct H as (H1 & H2 & H3).
    cbn zeta. split; [ exact (H3 Hfuel) | split; [ exact H1 | exact H2 ] ]. }
  split.
  - split; [ | split; [ | split ] ];
      [ | |
      | apply (construct_run_free_framed (F := interpreter h) fuel
                 (printf_parser_new_call fmt)
                 (printf_parser_new (Foreign := interpreter h) fmt)) ];
      rewrite vfprintf_on_interpreter;
      specialize (Hloop unbounded_sink w); cbn zeta in *;
      destruct (do_printf_loop (F := interpreter h) fuel
                  (mkObject (new_parser (bytes_of fmt)) unbounded_sink) args w)
        as [t [p' w' | f w' | w']];
      cbn [fst snd ending_of] in *; unfold iterations, completed_iterations in *;
      cbn [filter is_advance push_arg_returned fst];
      rewrite ?filter_snoc_false by reflexivity;
      destruct Hloop as (H1 & H2 & H3);
      solve [ discriminate | assumption | congruence ].
  - split; [ | split; [ | split ] ];
      [ | |
      | apply (construct_run_free_framed (F := interpreter h) fuel
                 (printf_parser_new_with_buf_call fmt buf (to_uint32 size))
                 (printf_parser_new_with_buf (Foreign := interpreter h) fmt buf
                    (to_uint32 size))) ];
      rewrite vsnprintf_on_interpreter;
      specialize (Hloop (fst (sink_write (bounded_sink buf (to_uint32 size)) [] w))
                        (snd (sink_write (bounded_sink buf (to_uint32 size)) [] w)));
      cbn zeta in *;
      destruct (do_printf_loop (F := interpreter h) fuel
                  (mkObject (new_parser (bytes_of fmt))
                     (fst (sink_write (bounded_sink buf (to_uint32 size)) [] w)))
                  args (snd (sink_write (bounded_sink buf (to_uint32 size)) [] w)))
        as [t [p' w' | f w' | w']];
      cbn [fst snd ending_of] in *; unfold iterations, completed_iterations in *;
      cbn [filter is_advance push_arg_returned fst];
      rewrite ?filter_snoc_false by reflexivity;
      destruct Hloop as (H1 & H2 & H3);
      solve [ discriminate | assumption | congruence ].
Qed.

(** The amended C4 on a format with a from-argument width: a format of three
    bytes, a budget of three passes, three passes made, two of them
    complete. *)
Lemma formatting_loop_terminates_witness :
  (ending_of (snd (vfprintf (F := interpreter ilp32) 3 1 "%*d"
                     (int_arg ilp32 5 ++ int_arg ilp32 42) blank))
   <> Running
   /\ (iterations (fst (vfprintf (F := interpreter ilp32) 3 1 "%*d"
                          (int_arg ilp32 5 ++ int_arg ilp32 42) blank))
       <= Nat.max 1 (String.length "%*d"))%nat
   /\ (completed_iterations
         (fst (vfprintf (F := interpreter ilp32) 3 1 "%*d"
                 (int_arg ilp32 5 ++ int_arg ilp32 42) blank))
       < Nat.max 1 (String.length "%*d"))%nat
   /\ framed (printf_parser_new_call "%*d")
             (fst (vfprintf (F := interpreter ilp32) 3 1 "%*d"
                     (int_arg ilp32 5 ++ int_arg ilp32 42) blank))
             (ending_of
                (snd (vfprintf (F := interpreter ilp32) 3 1 "%*d"
                        (int_arg ilp32 5 ++ int_arg ilp32 42) blank))))
  /\ (ending_of (snd (vsnprintf (F := interpreter ilp32) 3 100 8 "%*d"
                        (int_arg ilp32 5 ++ int_arg ilp32 42) blank))
      <> Running
      /\ (iterations (fst (vsnprintf (F := interpreter ilp32) 3 100 8
                             "%*d" (int_arg ilp32 5 ++ int_arg ilp32 42) blank))
          <= Nat.max 1 (String.length "%*d"))%nat
      /\ (completed_iterations
            (fst (vsnprintf (F := interpreter ilp32) 3 100 8 "%*d"
                    (int_arg ilp32 5 ++ int_arg ilp32 42) blank))
          < Nat.max 1 (String.length "%*d"))%nat
      /\ framed (printf_parser_new_with_buf_call "%*d" 100 (to_uint32 8))
                (fst (vsnprintf (F := interpreter ilp32) 3 100 8 "%*d"
                        (int_arg ilp32 5 ++ int_arg ilp32 42) blank))
                (ending_of
                   (snd (vsnprintf (F := interpreter ilp32) 3 100 8 "%*d"
                           (int_arg ilp32 5 ++ int_arg ilp32 42) blank)))).
Proof.
  apply (formatting_loop_terminates ilp32 3 1 100 8 "%*d"
           (int_arg ilp32 5 ++ int_arg ilp32 42) blank).
  cbn. lia.
Defined.

(** C4 as stated fails on the empty format: its length is 0 and the body of
    the loop is entered once, for the [advance] call that returns 0. *)
Lemma empty_format_takes_one_iteration :
  String.length EmptyString = 0%nat
  /\ iterations (fst (vfprintf (F := interpreter ilp32) (enough EmptyString) 1
                        EmptyString [] blank)) = 1%nat
  /\ iterations (fst (vsnprintf (F := interpreter ilp32) (enough EmptyString)
                        100 8 EmptyString [] blank)) = 1%nat
  /\ fst (vfprintf (F := interpreter ilp32) (enough EmptyString) 1
             EmptyString [] blank)
     = [(printf_parser_new_call EmptyString, returned_parser);
        advance_returned 0;
        (printf_parser_free_call, returned_void)].
Proof.
  repeat split.
Qed.

(** ** Running out of arguments *)

Lemma directive_step_fault_kinds :
  forall ph d c f,
    directive_step ph d c = Reject f -> f <> ArgumentExhausted.
Proof.
  intros ph d c f H.
  unfold directive_step, flag_step, digit_step, before_length in H.
  destruct (classify c); destruct ph; cbn in H; try discriminate H;
    inversion H; discriminate.
Qed.

Lemma finish_directive_fault_kinds :
  forall h d k f, finish_directive h d k = inl f -> f <> ArgumentExhausted.
Proof.
  intros h d k f H. unfold finish_directive in H.
  destruct k, (p_length d); try discriminate H; inversion H; discriminate.
Qed.

Lemma scan_fault_kinds :
  forall h input st out f,
    scan h st input = (out, Failed f) -> f <> ArgumentExhausted.
Proof.
  intros h. induction input as [| c input IH]; intros st out f H.
  - cbn in H. destruct st; inversion H; discriminate.
  - cbn [scan] in H. destruct st as [| ph d].
    + destruct (Ascii.eqb c "%"%char).
      * eapply IH; eassumption.
      * unfold emit in H. inversion H as [[Hout Hsnd]].
        destruct (scan h InLiteral input) as [o r] eqn:Hs.
        cbn in Hsnd. subst r. eapply IH; eassumption.
    + destruct (directive_step ph d c) as [ph' d' | k | g] eqn:Hstep.
      * eapply IH; eassumption.
      * assert (Hfin : forall k',
                   match finish_directive h d k' with
                   | inr dir0 => ([], AtDirective dir0 input)
                   | inl g => ([], Failed g)
                   end = (out, Failed f) -> f <> ArgumentExhausted).
        { intros k' Hk.
          destruct (finish_directive h d k') as [g | dir0] eqn:Hf;
            [ | discriminate Hk ].
          inversion Hk; subst.
          eapply finish_directive_fault_kinds; eassumption. }
        destruct k; try (apply Hfin in H; exact H).
        unfold emit in H. inversion H as [[Hout Hsnd]].
        destruct (scan h InLiteral input) as [o r] eqn:Hs.
        cbn in Hsnd. subst r. eapply IH; eassumption.
      * inversion H; subst.
        eapply directive_step_fault_kinds; eassumption.
Qed.

(** The parser itself never reports [ArgumentExhausted]. *)
Lemma parser_advance_fault_kinds :
  forall h p w f w',
    parser_advance h p w = Fault f w' -> f <> ArgumentExhausted.
Proof.
  intros h p w f w' H. unfold parser_advance in H.
  destruct (advance h (core p)) as [out r] eqn:Ha.
  destruct (sink_write (sink p) out w) as [s v].
  destruct r as [g | [m c]]; [ | discriminate H ].
  inversion H; subst. clear H.
  unfold advance in Ha.
  destruct (mode (core p)); [ | inversion Ha; discriminate ].
  destruct (side_channel_queue (core p)); [ | discriminate Ha ].
  destruct (pending_directive (core p)); [ discriminate Ha | ].
  destruct (scan h InLiteral (skipn (cursor (core p)) (format (core p))))
    as [o sc] eqn:Hs.
  destruct sc as [| d rest | g0].
  - discriminate Ha.
  - destruct (requests_of d); discriminate Ha.
  - inversion Ha; subst. eapply scan_fault_kinds; eassumption.
Qed.

Lemma parser_push_arg_fault_kinds :
  forall h p arg w f w',
    parser_push_arg h p arg w = Fault f w' -> f <> ArgumentExhausted.
Proof.
  intros h p arg w f w' H. unfold parser_push_arg in H.
  destruct (push_argument h (core p) arg) as [out r] eqn:Ha.
  destruct (sink_write (sink p) out w) as [s v].
  destruct r as [g | c]; [ | discriminate H ].
  inversion H; subst. clear H.
  unfold push_argument in Ha.
  destruct (side_channel_queue (core p));
    destruct (pending_directive (core p));
    destruct (mode (core p));
    try (inversion Ha; discriminate).
  destruct (render h d arg); inversion Ha; discriminate.
Qed.

Lemma pull_fails :
  forall args n f, pull args n = inl f -> f = ArgumentExhausted /\ len args < n.
Proof.
  intros args n f H. unfold pull in H.
  destruct (Z.leb_spec n (len args)); [ discriminate H | ].
  inversion H. split; [ reflexivity | assumption ].
Qed.

Lemma pull_succeeds :
  forall args n arg args',
    pull args n = inr (arg, args') ->
    n <= len args /\ len args' = len args - len arg.
Proof.
  intros args n arg args' H. unfold pull in H.
  destruct (Z.leb_spec n (len args)); [ | discriminate H ].
  inversion H; subst. split; [ assumption | ].
  rewrite <- (firstn_skipn (Z.to_nat n) args) at 2.
  rewrite len_app. lia.
Qed.

(** From an exhausted run to the failed pull. *)
Lemma loop_exhausted_at_pull :
  forall h fuel p args w,
    exhausted (do_printf_loop (F := interpreter h) fuel p args w) ->
    exists pre n,
      fst (do_printf_loop (F := interpreter h) fuel p args w)
      = pre ++ [advance_returned n; (va_arg_ptr_call n, no_return ArgumentExhausted)]
      /\ n <> 0
      /\ len args - bytes_pulled pre < n.
Proof.
  intros h. unfold exhausted.
  induction fuel as [| fuel IH]; intros p args w [w' Hex];
    [ discriminate Hex | ].
  rewrite do_printf_loop_unfold in *.
  cbn [printf_parser_advance printf_parser_push_arg va_arg_ptr interpreter] in *.
  destruct (parser_advance h p w) as [[n p1] w1 | f w1] eqn:Hadv.
  - destruct (Z.eqb_spec n 0) as [-> | Hn]; [ discriminate Hex | ].
    destruct (pull args n) as [f | [arg args']] eqn:Hpull.
    + apply pull_fails in Hpull. destruct Hpull as [-> Hlt].
      exists [], n. cbn. repeat split; [ assumption | lia ].
    + apply pull_succeeds in Hpull. destruct Hpull as [Hle Hlen].
      destruct (parser_push_arg h p1 arg w1) as [p2 w2 | f w2] eqn:Hpush.
      * specialize (IH p2 args' w2).
        destruct (do_printf_loop (F := interpreter h) fuel p2 args' w2) as [t o].
        cbn [fst snd] in *.
        destruct (IH (ex_intro _ w' Hex)) as (pre & m & -> & Hm & Hlt).
        exists (advance_returned n :: pulled n arg :: pushed arg :: pre), m.
        repeat split; [ assumption | ].
        cbn [bytes_pulled advance_returned pulled pushed]. lia.
      * cbn in Hex. inversion Hex; subst.
        apply parser_push_arg_fault_kinds in Hpush. congruence.
  - cbn in Hex. inversion Hex; subst.
    apply parser_advance_fault_kinds in Hadv. congruence.
Qed.

(** From a directive reached with too few bytes left to the exhausted run. *)
Lemma loop_starved_is_exhausted :
  forall h fuel p args w,
    starved args (fst (do_printf_loop (F := interpreter h) fuel p args w)) ->
    exhausted (do_printf_loop (F := interpreter h) fuel p args w).
Proof.
  intros h. unfold starved, exhausted.
  induction fuel as [| fuel IH]; intros p args w (pre & n & post & Heq & Hn & Hlt).
  - cbn in Heq. exfalso; eapply nil_eq_app_cons; eassumption.
  - rewrite do_printf_loop_unfold in *.
    cbn [printf_parser_advance printf_parser_push_arg va_arg_ptr interpreter] in *.
    unfold advance_returned, pulled, pushed in *.
    destruct (parser_advance h p w) as [[n0 p1] w1 | f w1] eqn:Hadv.
    + destruct (Z.eqb_spec n0 0) as [-> | Hn0].
      * cbn in Heq. peel Heq; [ inversion Hx; congruence | ].
        exfalso; eapply nil_eq_app_cons; eassumption.
      * destruct (pull args n0) as [f | [arg args']] eqn:Hpull.
        -- apply pull_fails in Hpull. destruct Hpull as [-> _].
           eexists. reflexivity.
        -- apply pull_succeeds in Hpull. destruct Hpull as [Hle Hlen].
           assert (Hhead : pre <> []).
           { intros ->. cbn in Hlt.
             destruct (parser_push_arg h p1 arg w1) as [p2 w2 | f w2];
               [ destruct (do_printf_loop (F := interpreter h) fuel p2 args' w2) | ];
               cbn in Heq; inversion Heq; subst; lia. }
           destruct (parser_push_arg h p1 arg w1) as [p2 w2 | f w2] eqn:Hpush.
           ++ specialize (IH p2 args' w2).
              destruct (do_printf_loop (F := interpreter h) fuel p2 args' w2)
                as [t o].
              cbn [fst snd] in *.
              peel Heq; [ congruence | ].
              peel Heq; [ discriminate Hx | ].
              peel Heq; [ discriminate Hx | ].
              apply IH.
              match type of Heq with
              | _ = ?pre' ++ _ => exists pre', n, post
              end.
              repeat split; [ assumption | assumption | ].
              cbn [bytes_pulled] in Hlt. lia.
           ++ cbn [fst] in Heq.
              peel Heq; [ congruence | ].
              peel Heq; [ discriminate Hx | ].
              peel Heq; [ discriminate Hx | ].
              exfalso; eapply nil_eq_app_cons; eassumption.
    + cbn in Heq. peel Heq; [ discriminate Hx | ].
      exfalso; eapply nil_eq_app_cons; eassumption.
Qed.


Lemma snoc_eq_app_cons :
  forall (A : Type) (t pre post : list A) (x e : A),
    t ++ [x] = pre ++ e :: post -> x <> e ->
    exists post', t = pre ++ e :: post'.
Proof.
  intros A t pre post x e H Hne.
  destruct post as [| y post] using rev_ind.
  - apply app_inj_tail in H. destruct H as [_ H]. congruence.
  - clear IHpost.
    change (pre ++ e :: post ++ [y]) with (pre ++ (e :: post) ++ [y]) in H.
    rewrite app_assoc in H. apply app_inj_tail in H. destruct H as [H _].
    exists post. exact H.
Qed.

Lemma exhausted_wrap :
  forall e0 r, exhausted (wrap e0 r) <-> exhausted r.
Proof.
  intros e0 [t [p' w' | f w' | w']]; unfold exhausted, wrap; cbn;
    split; intros [v H]; inversion H; subst; eexists; reflexivity.
Qed.

Lemma starved_wrap :
  forall args c r,
    c <> printf_parser_advance_call ->
    starved args (fst (wrap (c, returned_parser) r)) <-> starved args (fst r).
Proof.
  intros args c r Hc.
  assert (Hb : forall t, bytes_pulled ((c, returned_parser) :: t) = bytes_pulled t).
  { intros t. destruct c; reflexivity. }
  unfold starved. split.
  - intros (pre & n & post & Heq & Hn & Hlt).
    assert (Hshape : exists x,
               fst (wrap (c, returned_parser) r) = (c, returned_parser) :: x
               /\ (x = fst r
                   \/ x = fst r ++ [(printf_parser_free_call, returned_void)])).
    { destruct r as [t [p' w' | f w' | w']]; unfold wrap; cbn;
        eexists; split; try reflexivity; auto. }
    destruct Hshape as (x & Hx0 & Hx1). rewrite Hx0 in Heq.
    peel Heq; [ unfold advance_returned in Hx; inversion Hx; congruence | ].
    rewrite Hb in Hlt.
    destruct Hx1 as [-> | ->].
    + eexists _, n, post. repeat split; eassumption.
    + apply snoc_eq_app_cons in Heq; [ | discriminate ].
      destruct Heq as [post' Heq].
      eexists _, n, post'. repeat split; eassumption.
  - intros (pre & n & post & Heq & Hn & Hlt).
    destruct r as [t [p' w' | f w' | w']]; unfold wrap; cbn [fst snd] in *;
      subst t.
    + exists ((c, returned_parser) :: pre), n,
             (post ++ [(printf_parser_free_call, returned_void)]).
      rewrite Hb. repeat split; try assumption.
      cbn. rewrite <- app_assoc. reflexivity.
    + exists ((c, returned_parser) :: pre), n, post.
      rewrite Hb. repeat split; try assumption.
    + exists ((c, returned_parser) :: pre), n, post.
      rewrite Hb. repeat split; try assumption.
Qed.

Lemma aborted_at_pull_wrap :
  forall e0 r,
    exhausted r -> aborted_at_pull (fst r) -> aborted_at_pull (fst (wrap e0 r)).
Proof.
  intros e0 [t o] [w' Hex] (pre & n & Heq).
  cbn in Hex, Heq. subst o t. unfold wrap. cbn.
  exists (e0 :: pre), n. reflexivity.
Qed.

Lemma loop_exhausted_exactly_when_starved :
  forall h fuel p args w,
    exhausted_exactly_when_starved args
      (do_printf_loop (F := interpreter h) fuel p args w).
Proof.
  intros h fuel p args w. split; [ split | ].
  - intros Hex.
    destruct (loop_exhausted_at_pull h fuel p args w Hex)
      as (pre & n & Heq & Hn & Hlt).
    exists pre, n, [(va_arg_ptr_call n, no_return ArgumentExhausted)].
    repeat split; assumption.
  - apply loop_starved_is_exhausted.
  - intros Hex.
    destruct (loop_exhausted_at_pull h fuel p args w Hex)
      as (pre & n & Heq & _).
    exists pre, n. exact Heq.
Qed.

Lemma wrap_exhausted_exactly_when_starved :
  forall args c r,
    c <> printf_parser_advance_call ->
    exhausted_exactly_when_starved args r ->
    exhausted_exactly_when_starved args (wrap (c, returned_parser) r).
Proof.
  intros args c r Hc [Hiff Hat]. split.
  - rewrite exhausted_wrap, starved_wrap by assumption. exact Hiff.
  - intros Hex. apply exhausted_wrap in Hex.
    apply aborted_at_pull_wrap; auto.
Qed.

(** [printf] and [snprintf] add nothing to the trace of the call they make
    and end as it ends. *)
Lemma then_return_none :
  forall (A : Type) args (m : M A) w,
    exhausted_exactly_when_starved args (m w) ->
    exhausted_exactly_when_starved args (bind m (fun _ => ret (@None Z)) w).
Proof.
  intros A args m w H.
  assert (Hfst : fst (bind m (fun _ => ret (@None Z)) w) = fst (m w)).
  { unfold bind, ret. destruct (m w) as [t [a v | f v | v]]; cbn;
      [ apply app_nil_r | reflexivity | reflexivity ]. }
  assert (Hex : exhausted (bind m (fun _ => ret (@None Z)) w) <-> exhausted (m w)).
  { unfold exhausted, bind, ret. destruct (m w) as [t [a v | f v | v]]; cbn;
      split; intros [v' Hv]; inversion Hv; subst; eexists; reflexivity. }
  unfold exhausted_exactly_when_starved in *.
  rewrite Hfst, Hex. exact H.
Qed.

(** On the argument cursor as the specification words it ([pull] of section
    4.2, which fails when fewer bytes are left than are asked for), a
    formatting call ([do_printf] from any parser state, [vfprintf],
    [vsnprintf], [printf], [snprintf]) ends in [ArgumentExhausted] if and
    only if a directive that needs an argument is reached ([advance] asks for
    [n] bytes) when fewer than [n] bytes of the argument sequence are left;
    and when it does, the failed pull is the last call of the run.  This is a
    fact about that cursor: the check is [pull]'s, the C code has none. *)
Theorem argument_exhausted_exactly_when_starved :
  forall (h : Host) (fuel : nat) (stream buf size : Z) (fmt : string)
         (args : ArgumentCursor) (p : Parser) (w : World),
    exhausted_exactly_when_starved args
      (do_printf (F := interpreter h) fuel p fmt args w)
    /\ exhausted_exactly_when_starved args
         (vfprintf (F := interpreter h) fuel stream fmt args w)
    /\ exhausted_exactly_when_starved args
         (vsnprintf (F := interpreter h) fuel buf size fmt args w)
    /\ exhausted_exactly_when_starved args
         (printf (F := interpreter h) fuel fmt args w)
    /\ exhausted_exactly_when_starved args
         (snprintf (F := interpreter h) fuel buf size fmt args w).
Proof.
  intros h fuel stream buf size fmt args p w.
  assert (Hv : forall stream',
             exhausted_exactly_when_starved args
               (vfprintf (F := interpreter h) fuel stream' fmt args w)).
  { intros stream'. rewrite vfprintf_on_interpreter.
    apply (wrap_exhausted_exactly_when_starved args (printf_parser_new_call fmt));
      [ discriminate | apply loop_exhausted_exactly_when_starved ]. }
  assert (Hs : exhausted_exactly_when_starved args
                 (vsnprintf (F := interpreter h) fuel buf size fmt args w)).
  { rewrite vsnprintf_on_interpreter.
    apply (wrap_exhausted_exactly_when_starved args
             (printf_parser_new_with_buf_call fmt buf (to_uint32 size)));
      [ discriminate | apply loop_exhausted_exactly_when_starved ]. }
  split; [ apply loop_exhausted_exactly_when_starved | ].
  split; [ apply Hv | ].
  split; [ exact Hs | ].
  split.
  - apply (then_return_none _ args
             (vfprintf (F := interpreter h) fuel (stdout (Foreign := interpreter h))
                       fmt args)).
    apply Hv.
  - apply (then_return_none _ args
             (vsnprintf (F := interpreter h) fuel buf size fmt args)).
    exact Hs.
Qed.

(** On that cursor the sequence need not be fully consumed for a pull to
    fail: with "%lld" (an 8-byte argument on the 32-bit target) and a single
    4-byte [int] pushed, the call ends in [ArgumentExhausted] although not
    one byte of the argument sequence has been consumed. *)
Lemma exhausted_before_fully_consumed :
  exhausted (snprintf (F := interpreter ilp32) (enough "%lld") 100 8 "%lld"
               (int_arg ilp32 3) blank)
  /\ fst (snprintf (F := interpreter ilp32) (enough "%lld") 100 8 "%lld"
            (int_arg ilp32 3) blank)
     = [(printf_parser_new_with_buf_call "%lld" 100 8, returned_parser);
        advance_returned 8;
        (va_arg_ptr_call 8, no_return ArgumentExhausted)]
  /\ len (int_arg ilp32 3) = 4
  /\ ~ starved_when_fully_consumed (int_arg ilp32 3)
         (fst (snprintf (F := interpreter ilp32) (enough "%lld") 100 8 "%lld"
                 (int_arg ilp32 3) blank)).
Proof.
  split; [ eexists; vm_compute; reflexivity | ].
  split; [ vm_compute; reflexivity | ].
  split; [ reflexivity | ].
  intros (pre & n & post & Heq & Hn & Hall).
  change (fst (snprintf (F := interpreter ilp32) (enough "%lld") 100 8 "%lld"
                 (int_arg ilp32 3) blank))
    with [(printf_parser_new_with_buf_call "%lld" 100 8, returned_parser);
          advance_returned 8;
          (va_arg_ptr_call 8, no_return ArgumentExhausted)] in Heq.
  change (len (int_arg ilp32 3)) with 4 in Hall.
  unfold advance_returned in Heq.
  peel Heq; [ discriminate Hx | ].
  peel Heq; [ cbn in Hall; discriminate Hall | ].
  peel Heq; [ discriminate Hx | ].
  eapply nil_eq_app_cons; eassumption.
Qed.

(** The modelled parser meets the assumption of the [errno] frame: its sinks
    write to the console or to memory, and look at neither. *)
Lemma sink_write_leaves_errno :
  forall s bytes w e,
    errno (snd (sink_write s bytes w)) = errno w
    /\ sink_write s bytes (with_errno e w)
       = (fst (sink_write s bytes w), with_errno e (snd (sink_write s bytes w))).
Proof.
  intros s bytes w e. unfold sink_write.
  destruct (kind s); split; reflexivity.
Qed.

Lemma interpreter_leaves_errno :
  forall h, errno_is_foreign_to_the_parser (F := interpreter h).
Proof.
  intros h. constructor;
    cbn [printf_parser_new printf_parser_new_with_buf printf_parser_free
         printf_parser_push_arg printf_parser_advance interpreter].
  - intros fmt w e. split; reflexivity.
  - intros fmt buf size w e. unfold parser_new_with_buf.
    destruct (sink_write_leaves_errno (bounded_sink buf size) [] w e) as [H1 H2].
    rewrite H2.
    destruct (sink_write (bounded_sink buf size) [] w).
    split; [ exact H1 | reflexivity ].
  - intros p w e. split; reflexivity.
  - intros p arg w e. unfold parser_push_arg.
    destruct (push_argument h (core p) arg) as [out r].
    destruct (sink_write_leaves_errno (sink p) out w e) as [H1 H2].
    rewrite H2.
    destruct (sink_write (sink p) out w).
    destruct r; (split; [ exact H1 | reflexivity ]).
  - intros p w e. unfold parser_advance.
    destruct (advance h (core p)) as [out r].
    destruct (sink_write_leaves_errno (sink p) out w e) as [H1 H2].
    rewrite H2.
    destruct (sink_write (sink p) out w).
    destruct r as [f | [n c]]; (split; [ exact H1 | reflexivity ]).
Qed.

End InterpFacts.

(** ** Runs on the scripted parser *)




(** C6 on the scripted parser, whose functions do not touch the world at all:
    [errno] is 7 before each of the five calls and 7 after, and the calls run
    the same with 42 in its place. *)
Lemma formatting_calls_keep_errno_witness :
  let F := Scripted.foreign_of [4; 0] in
  let w := mkWorld 7 [] (fun _ => Interp.NUL) in
  let args := Interp.int_arg Interp.ilp32 3 in
  errno_untouched_at (printf 5 "%d" args) w 42
  /\ errno_untouched_at (snprintf 5 4096 32 "%d" args) w 42
  /\ errno_untouched_at (vfprintf 5 1 "%d" args) w 42
  /\ errno_untouched_at (vsnprintf 5 4096 32 "%d" args) w 42
  /\ errno_untouched_at (do_printf 5 [4; 0] "%d" args) w 42.
Proof.
  intros F w args.
  apply (formatting_calls_keep_errno (F := F)).
  constructor; intros; intros w' e'; cbn; try (split; reflexivity).
  destruct parser; split; reflexivity.
Defined.

(** ** [errno] across the whole file *)

Section CallSequences.
Context {F : Foreign}.
Hypothesis parser_leaves_errno : errno_is_foreign_to_the_parser.

Lemma errno_untouched_run_stub :
  forall c, errno_untouched (run_stub c).
Proof.
  intros c w e. destruct c; split; reflexivity.
Qed.

Lemma errno_untouched_then_unit :
  forall (A : Type) (m : M A),
    errno_untouched m -> errno_untouched (bind m (fun _ => ret tt)).
Proof.
  intros A m Hm. apply errno_untouched_bind; [ exact Hm | ].
  intros a. apply errno_untouched_ret.
Qed.

Lemma errno_untouched_run_call :
  forall fuel c, errno_untouched (run_call fuel c).
Proof.
  intros fuel c.
  assert (Hpure : forall (A : Type) (a : A), errno_untouched (ret a))
    by (intros A a w e; split; reflexivity).
  destruct c; cbn [run_call].
  - apply errno_untouched_run_stub.
  - apply errno_untouched_then_unit, Hpure.
  - apply errno_untouched_then_unit, Hpure.
  - apply errno_untouched_then_unit, Hpure.
  - apply Hpure.
  - apply Hpure.
  - apply Hpure.
  - apply errno_untouched_then_unit. unfold printf.
    apply errno_untouched_bind; [ | intros; apply Hpure ].
    apply (errno_untouched_vfprintf parser_leaves_errno).
  - apply errno_untouched_then_unit. unfold snprintf.
    apply errno_untouched_bind; [ | intros; apply Hpure ].
    apply (errno_untouched_vsnprintf parser_leaves_errno).
  - apply errno_untouched_then_unit.
    apply (errno_untouched_vfprintf parser_leaves_errno).
  - apply errno_untouched_then_unit.
    apply (errno_untouched_vsnprintf parser_leaves_errno).
  - apply errno_untouched_then_unit.
    apply (errno_untouched_do_printf_loop parser_leaves_errno).
Qed.

(** X6: no routine of fakelibc.c assigns or reads the [errno] it defines.  As
    long as the foreign parser functions neither write nor read [errno], a
    client making any sequence of calls to the routines of the file (the
    thirteen stubs, [mkdir], [system], [fflush], the three [DG_] routines and
    the five formatting routines) ends, however it ends, with [errno] as it
    was at the start, and makes the same calls and ends the same way with any
    other value in [errno]. *)
Theorem errno_is_never_touched :
  forall (fuel : nat) (cs : list libc_call) (w : World) (e : Z),
    errno_untouched_at (run_calls fuel cs) w e.
Proof.
  intros fuel cs. induction cs as [| c cs IH].
  - apply errno_untouched_ret.
  - cbn [run_calls]. apply errno_untouched_bind.
    + apply errno_untouched_run_call.
    + intros _. exact IH.
Qed.

End CallSequences.

(** X6 on the scripted parser: a failing [system], a [printf], a [mkdir], an
    [snprintf], then [atoi], which panics; [errno] is 7 throughout. *)
Lemma errno_is_never_touched_witness :
  let F := Scripted.foreign_of [4; 0] in
  let w := mkWorld 7 [] (fun _ => Interp.NUL) in
  let args := Interp.int_arg Interp.ilp32 3 in
  errno_untouched_at
    (run_calls 5 [Call_system "ls"; Call_printf "%d" args; Call_mkdir "/tmp" 493;
                  Call_snprintf 4096 32 "%d" args; Call_stub (call_atoi "12");
                  Call_DG_Init])
    w 42.
Proof.
  intros F w args.
  apply (errno_is_never_touched (F := F)).
  constructor; intros; intros w' e'; cbn; try (split; reflexivity).
  destruct parser; split; reflexivity.
Defined.

(** ** The sample program *)

Module SampleFacts.
Import Sample.

Section OnAnyHost.
Variable Host : Type.
Variable host_call : fnptr -> argument -> Host -> option Host.

(** X7: before [_start] has run, the three handlers are null: [print],
    [exit_2], [panic] and [print_and_exit] each end in a call through a null
    function pointer, without having reached the host. *)
Theorem handlers_are_null_before_start :
  forall (s : string) (code : Z) (h : Host),
    print Host host_call s initial_statics h = ([], NullCall initial_statics h)
    /\ exit_2 Host host_call code initial_statics h
       = ([], NullCall initial_statics h)
    /\ panic Host host_call s initial_statics h
       = ([], NullCall initial_statics h)
    /\ print_and_exit Host host_call initial_statics h
       = ([], NullCall initial_statics h).
Proof.
  intros s code h. repeat split.
Qed.

(** X8: whatever the statics held, the host calls of [_start] are the first
    [k] of: the table's [print] on "Hello world\n", its [exit] on 30, its
    [panic] on ">:("; in that order, where [k] is fixed by the first handler
    that is null or does not return.  No call is made exactly when [print] is
    null; [print] alone is called exactly when it is not null and either does
    not return or [exit] is null; [print] and [exit] alone are called exactly
    when neither is null, [print] returned and either [exit] does not return
    or [panic] is null; [panic] is reached exactly when the three handlers
    are not null and [print] and [exit] both returned. *)
Theorem start_greets_in_order :
  forall (vt : vtable) (g : Statics) (h : Host),
    exists k,
      (k <= 3)%nat
      /\ fst (_start Host host_call vt g h) = firstn k (greeting vt)
      /\ (k = 0%nat <-> vt_print vt = 0)
      /\ (k = 1%nat <->
          vt_print vt <> 0
          /\ (host_call (vt_print vt) (Text hello_world) h = None
              \/ (exists h1,
                     host_call (vt_print vt) (Text hello_world) h = Some h1)
                 /\ vt_exit vt = 0))
      /\ (k = 2%nat <->
          vt_print vt <> 0 /\ vt_exit vt <> 0
          /\ exists h1,
               host_call (vt_print vt) (Text hello_world) h = Some h1
               /\ (host_call (vt_exit vt) (Code 30) h1 = None
                   \/ (exists h2,
                          host_call (vt_exit vt) (Code 30) h1 = Some h2)
                      /\ vt_panic vt = 0))
      /\ (k = 3%nat <->
          vt_print vt <> 0 /\ vt_exit vt <> 0 /\ vt_panic vt <> 0
          /\ exists h1 h2,
               host_call (vt_print vt) (Text hello_world) h = Some h1
               /\ host_call (vt_exit vt) (Code 30) h1 = Some h2).
Proof.
  intros [p x q] g h.
  unfold _start, print_and_exit, print, exit_2, panic, bind, load, store_static,
    call_through, greeting.
  cbn -[Z.eqb firstn hello_world].
  destruct (Z.eqb_spec p 0) as [Hp | Hp].
  { exists 0%nat. cbn -[hello_world].
    split; [ lia | split; [ reflexivity | ] ].
    split; [ split; [ intros _; exact Hp | reflexivity ] | ].
    split; [ split; [ intros Hk; discriminate Hk | intros (A & _); contradiction ] | ].
    split; [ split; [ intros Hk; discriminate Hk | intros (A & _); contradiction ] | ].
    split; [ intros Hk; discriminate Hk | intros (A & _); contradiction ]. }
  destruct (host_call p (Text hello_world) h) as [h1 |] eqn:Hh1;
    cbn -[Z.eqb firstn hello_world].
  2:{ exists 1%nat. cbn -[hello_world].
      split; [ lia | split; [ reflexivity | ] ].
      split; [ split; [ intros Hk; discriminate Hk | intros A; contradiction ] | ].
      split; [ split; [ intros _; split; [ exact Hp | left; reflexivity ]
                      | reflexivity ] | ].
      split; [ split; [ intros Hk; discriminate Hk
                      | intros (_ & _ & h1 & E1 & _); discriminate E1 ] | ].
      split; [ intros Hk; discriminate Hk | ].
      intros (_ & _ & _ & h1 & h2 & E1 & _). discriminate E1. }
  destruct (Z.eqb_spec x 0) as [Hx | Hx].
  { exists 1%nat. cbn -[hello_world].
    split; [ lia | split; [ reflexivity | ] ].
    split; [ split; [ intros Hk; discriminate Hk | intros A; contradiction ] | ].
    split; [ split; [ intros _; split; [ exact Hp | right; split;
                                            [ exists h1; reflexivity | exact Hx ] ]
                    | reflexivity ] | ].
    split; [ split; [ intros Hk; discriminate Hk
                    | intros (_ & B & _); contradiction ] | ].
    split; [ intros Hk; discriminate Hk | intros (_ & B & _); contradiction ]. }
  destruct (host_call x (Code 30) h1) as [h2 |] eqn:Hh2;
    cbn -[Z.eqb firstn hello_world].
  2:{ exists 2%nat. cbn -[hello_world].
      split; [ lia | split; [ reflexivity | ] ].
      split; [ split; [ intros Hk; discriminate Hk | intros A; contradiction ] | ].
      split; [ split; [ intros Hk; discriminate Hk
                      | intros (_ & [E1 | (_ & B)]);
                        [ discriminate E1 | contradiction ] ] | ].
      split; [ split; [ intros _; split; [ exact Hp | split; [ exact Hx | ] ];
                        exists h1; split; [ reflexivity | left; exact Hh2 ]
                      | reflexivity ] | ].
      split; [ intros Hk; discriminate Hk | ].
      intros (_ & _ & _ & h1' & h2 & E1 & E2). congruence. }
  destruct (Z.eqb_spec q 0) as [Hq | Hq].
  { exists 2%nat. cbn -[hello_world].
    split; [ lia | split; [ reflexivity | ] ].
    split; [ split; [ intros Hk; discriminate Hk | intros A; contradiction ] | ].
    split; [ split; [ intros Hk; discriminate Hk
                    | intros (_ & [E1 | (_ & B)]);
                      [ discriminate E1 | contradiction ] ] | ].
    split; [ split; [ intros _; split; [ exact Hp | split; [ exact Hx | ] ];
                      exists h1; split; [ reflexivity | right; split;
                                            [ exists h2; exact Hh2 | exact Hq ] ]
                    | reflexivity ] | ].
    split; [ intros Hk; discriminate Hk | intros (_ & _ & C & _); contradiction ]. }
  exists 3%nat.
  split; [ lia | ].
  split; [ destruct (host_call q (Text ">:(") h2); reflexivity | ].
  split; [ split; [ intros Hk; discriminate Hk | intros A; contradiction ] | ].
  split; [ split; [ intros Hk; discriminate Hk
                  | intros (_ & [E1 | (_ & B)]);
                    [ discriminate E1 | contradiction ] ] | ].
  split; [ split; [ intros Hk; discriminate Hk | ] | ].
  { intros (_ & _ & h1' & E1 & [E2 | (_ & C)]); [ | contradiction ].
    assert (h1' = h1) by congruence. subst h1'. congruence. }
  split; [ intros _ | reflexivity ].
  repeat split; try assumption.
  exists h1, h2. split; [ reflexivity | assumption ].
Qed.

(** X9: [_start] installs the whole table.  Whatever the three statics held
    before and however [_start] ends, they then hold the table's three
    pointers; [_start] behaves the same from any earlier statics (nothing of
    an earlier table survives); and a [print] after a [_start] that returned
    goes to the table's [print]. *)
Theorem start_installs_the_table :
  forall (vt : vtable) (g : Statics) (h : Host) (s : string),
    statics_of Host (snd (_start Host host_call vt g h))
    = mkStatics (vt_exit vt) (vt_print vt) (vt_panic vt)
    /\ _start Host host_call vt g h = _start Host host_call vt initial_statics h
    /\ fst (bind Host (_start Host host_call vt)
              (fun _ => print Host host_call s) g h)
       = fst (_start Host host_call vt g h)
         ++ match snd (_start Host host_call vt g h) with
            | Done _ _ _ => [(vt_print vt, Text s)]
            | _ => []
            end.
Proof.
  intros [p x q] g h s.
  unfold _start, print_and_exit, print, exit_2, panic, bind, load, store_static,
    call_through.
  cbn -[Z.eqb hello_world].
  destruct (Z.eqb_spec p 0) as [Hp | Hp]; [ repeat split | ].
  destruct (host_call p (Text hello_world) h) as [h1 |]; cbn -[Z.eqb hello_world];
    [ | repeat split ].
  destruct (Z.eqb_spec x 0) as [Hx | Hx]; [ repeat split | ].
  destruct (host_call x (Code 30) h1) as [h2 |]; cbn -[Z.eqb hello_world];
    [ | repeat split ].
  destruct (Z.eqb_spec q 0) as [Hq | Hq]; [ repeat split | ].
  destruct (host_call q (Text ">:(") h2) as [h3 |]; cbn -[Z.eqb hello_world];
    [ | repeat split ].
  destruct (Z.eqb_spec p 0) as [Hp' | _]; [ contradiction | ].
  destruct (host_call p (Text s) h3); repeat split.
Qed.

End OnAnyHost.

End SampleFacts.
